(** * An LRU cache: hash map plus doubly linked list

    Shallow embedding of [lru_cache.py].  Python objects live in an
    object store indexed by their identity; a variable or an attribute
    that holds a node holds a reference, which is either [None] or the
    identity of a [Node].  Every method of [LRUCache] is a computation in
    a state-and-exception monad over the store and the attributes of
    [self]. *)

From Stdlib Require Import ZArith Lia.
From stdpp Require Import gmap list fin_maps strings pretty.

(** ** Objects *)

(** Identity of an object in the store. *)
Abbreviation loc := nat (only parsing).

(** A reference: [None] is Python's [None]. *)
Abbreviation ref := (option nat) (only parsing).

(** [class Node]: a key-value pair and the two links. *)
Record Node := mkNode {
  key : Z;
  value : Z;
  prev : ref;
  next : ref
}.

Definition with_value (v : Z) (n : Node) : Node :=
  mkNode (key n) v (prev n) (next n).
Definition with_prev (p : ref) (n : Node) : Node :=
  mkNode (key n) (value n) p (next n).
Definition with_next (x : ref) (n : Node) : Node :=
  mkNode (key n) (value n) (prev n) x.

(** [class LRUCache]: the attributes of [self], together with the store
    that holds the nodes they refer to. *)
Record LRUCache := mkLRU {
  heap : gmap nat Node;
  capacity : Z;
  cache : gmap Z nat;
  head : loc;
  tail : loc
}.

Definition with_heap (h : gmap nat Node) (s : LRUCache) : LRUCache :=
  mkLRU h (capacity s) (cache s) (head s) (tail s).
Definition with_cache (c : gmap Z nat) (s : LRUCache) : LRUCache :=
  mkLRU (heap s) (capacity s) c (head s) (tail s).

(** ** Exceptions and the monad *)

Inductive exn := ValueError | AttributeError | KeyError.

Inductive result (A : Type) :=
  | Ok (a : A)
  | Raise (e : exn).
Arguments Ok {A} a.
Arguments Raise {A} e.

Definition M (A : Type) : Type := LRUCache → result (A * LRUCache).

Definition ret {A} (a : A) : M A := λ s, Ok (a, s).
Definition bind {A B} (m : M A) (k : A → M B) : M B :=
  λ s, match m s with
       | Ok (a, s') => k a s'
       | Raise e => Raise e
       end.

Notation "x <- m ;; k" := (bind m (λ x, k))
  (at level 100, m at next level, right associativity).
Notation "m ;;; k" := (bind m (λ _, k))
  (at level 100, right associativity).

(** Attribute reads and writes.  Reading or writing an attribute of
    [None] raises [AttributeError]. *)
Definition load {A} (f : Node → A) (r : ref) : M A :=
  λ s, match r with
       | None => Raise AttributeError
       | Some l => match heap s !! l with
                   | Some n => Ok (f n, s)
                   | None => Raise AttributeError
                   end
       end.

Definition store (f : Node → Node) (r : ref) : M unit :=
  λ s, match r with
       | None => Raise AttributeError
       | Some l => match heap s !! l with
                   | Some n => Ok (tt, with_heap (<[l := f n]> (heap s)) s)
                   | None => Raise AttributeError
                   end
       end.

(** [Node(key, value)]: a new object, with both links [None].  Its
    identity is one that no object of the store has; a node that nothing
    refers to any more stays in the store, where nothing reads it. *)
Definition alloc (k v : Z) : M ref :=
  λ s, let l := fresh (dom (heap s)) in
       Ok (Some l, with_heap (<[l := mkNode k v None None]> (heap s)) s).

Definition self_head : M ref := λ s, Ok (Some (head s), s).
Definition self_tail : M ref := λ s, Ok (Some (tail s), s).
Definition self_capacity : M Z := λ s, Ok (capacity s, s).

(** [self.cache.get(key)], [len(self.cache)], [self.cache[key] = node]
    and [del self.cache[key]]. *)
Definition cache_get (k : Z) : M ref := λ s, Ok (cache s !! k, s).
Definition cache_len : M Z := λ s, Ok (Z.of_nat (size (cache s)), s).
Definition cache_set (k : Z) (r : ref) : M unit :=
  λ s, match r with
       | Some l => Ok (tt, with_cache (<[k := l]> (cache s)) s)
       | None => Raise AttributeError
       end.
Definition cache_del (k : Z) : M unit :=
  λ s, match cache s !! k with
       | Some _ => Ok (tt, with_cache (delete k (cache s)) s)
       | None => Raise KeyError
       end.

(** ** The methods of [LRUCache] *)

(** [__init__]: [ValueError] unless the capacity is positive; the store
    of a new cache holds the two dummy nodes, [head] at 0 and [tail] at 1,
    created with [Node()] and then linked to each other. *)
Definition __init__ (cap : Z) : result LRUCache :=
  if decide (cap ≤ 0)%Z then Raise ValueError
  else
    let h := 0 in
    let t := 1 in
    let s := mkLRU (<[t := mkNode 0 0 None None]>
                      (<[h := mkNode 0 0 None None]> ∅)) cap ∅ h t in
    match (store (with_next (Some t)) (Some h) ;;;
           store (with_prev (Some h)) (Some t)) s with
    | Ok (_, s') => Ok s'
    | Raise e => Raise e
    end.

Definition _add_node (node : ref) : M unit :=
  h <- self_head ;;
  store (with_prev h) node ;;;
  h <- self_head ;;
  hn <- load next h ;;
  store (with_next hn) node ;;;
  h <- self_head ;;
  hn <- load next h ;;
  store (with_prev node) hn ;;;
  h <- self_head ;;
  store (with_next node) h.

Definition _remove_node (node : ref) : M unit :=
  prev_node <- load prev node ;;
  next_node <- load next node ;;
  store (with_next next_node) prev_node ;;;
  store (with_prev prev_node) next_node.

Definition _move_to_head (node : ref) : M unit :=
  _remove_node node ;;;
  _add_node node.

Definition _pop_tail : M ref :=
  t <- self_tail ;;
  last_node <- load prev t ;;
  _remove_node last_node ;;;
  ret last_node.

Definition get (k : Z) : M Z :=
  node <- cache_get k ;;
  match node with
  | None => ret (-1)%Z
  | Some _ =>
      _move_to_head node ;;;
      load value node
  end.

Definition put (k v : Z) : M unit :=
  node <- cache_get k ;;
  match node with
  | None =>
      new_node <- alloc k v ;;
      n <- cache_len ;;
      cap <- self_capacity ;;
      (if decide (cap ≤ n)%Z then
         tail_node <- _pop_tail ;;
         tk <- load key tail_node ;;
         cache_del tk
       else ret tt) ;;;
      cache_set k new_node ;;;
      _add_node new_node
  | Some _ =>
      store (with_value v) node ;;;
      _move_to_head node
  end.

(** The traversal loop of [display_cache_state]: from [self.head.next],
    following [next] until [self.tail], collecting the nodes met.  The
    loop need not terminate on an arbitrary store, hence the fuel. *)
Fixpoint walk (fuel : nat) (h : gmap nat Node) (t : loc) (current : ref)
  : option (list nat) :=
  match fuel with
  | O => None
  | S fuel' =>
      match current with
      | None => None
      | Some l =>
          if decide (l = t) then Some []
          else match h !! l with
               | None => None
               | Some n => cons l <$> walk fuel' h t (next n)
               end
      end
  end.

Definition chain (s : LRUCache) : option (list nat) :=
  match heap s !! head s with
  | None => None
  | Some n => walk (size (heap s)) (heap s) (tail s) (next n)
  end.

Definition entry (h : gmap nat Node) (l : loc) : Z * Z :=
  match h !! l with
  | Some n => (key n, value n)
  | None => (0, 0)%Z
  end.

(** The [(key, value)] pairs from most to least recently used. *)
Definition items (s : LRUCache) : option (list (Z * Z)) :=
  (λ ls : list nat, entry (heap s) <$> ls) <$> chain s.

(** ** Sequences of public operations *)

Inductive op := Get (k : Z) | Put (k v : Z).

(** The value a call returns: [put] returns [None]. *)
Definition step (o : op) : M (option Z) :=
  match o with
  | Get k => v <- get k ;; ret (Some v)
  | Put k v => put k v ;;; ret None
  end.

Fixpoint run (ops : list op) : M (list (option Z)) :=
  match ops with
  | [] => ret []
  | o :: ops' => r <- step o ;; rs <- run ops' ;; ret (r :: rs)
  end.

Definition session (cap : Z) (ops : list op)
  : result (list (option Z) * LRUCache) :=
  match __init__ cap with
  | Ok s => run ops s
  | Raise e => Raise e
  end.

(** The states a program can observe: a cache that was constructed, then
    used through [get] and [put] only. *)
Inductive reachable : LRUCache → Prop :=
  | reach_init cap s :
      __init__ cap = Ok s → reachable s
  | reach_get s k v s' :
      reachable s → get k s = Ok (v, s') → reachable s'
  | reach_put s k v s' :
      reachable s → put k v s = Ok (tt, s') → reachable s'.

(** [len(self.cache)], the size of the cache. *)
Definition len (s : LRUCache) : Z := Z.of_nat (size (cache s)).

(** ** Reading the store *)

(** An attribute of the object [l], if [l] is in the store. *)
Definition fld {A} (f : Node → A) (h : gmap nat Node) (l : loc) : option A :=
  f <$> h !! l.

(** [self.head.next], the most recently used position, and
    [self.tail.prev], the least recently used one. *)
Definition after_head (s : LRUCache) : option ref :=
  fld next (heap s) (head s).
Definition before_tail (s : LRUCache) : option ref :=
  fld prev (heap s) (tail s).

(** The node [b] follows the node [a]: the two links agree. *)
Definition adjacent (h : gmap nat Node) (a b : loc) : Prop :=
  fld next h a = Some (Some b) ∧ fld prev h b = Some (Some a).

(** Every two consecutive nodes of [c] are linked both ways. *)
Definition linked (h : gmap nat Node) (c : list nat) : Prop :=
  ∀ i a b, c !! i = Some a → c !! S i = Some b → adjacent h a b.

(** The store after [_remove_node] of a node between [p] and [q]. *)
Definition unlink (p q : loc) (h : gmap nat Node) : gmap nat Node :=
  alter (with_prev (Some p)) q (alter (with_next (Some q)) p h).

(** The store after [_add_node n], with [q] the node after [hd]. *)
Definition link (hd q n : loc) (h : gmap nat Node) : gmap nat Node :=
  alter (with_next (Some n)) hd
    (alter (with_prev (Some n)) q
       (alter (with_next (Some q)) n
          (alter (with_prev (Some hd)) n h))).

(** ** Representation and auxiliary definitions *)

(** The list with its two sentinels. *)
Definition chain_of (hd tl : loc) (ls : list nat) : list nat :=
  hd :: ls ++ [tl].

(** The store holds the doubly linked list [hd :: ls ++ [tl]]. *)
Record dll (h : gmap nat Node) (hd tl : loc) (ls : list nat) : Prop := {
  dll_nodup : NoDup (chain_of hd tl ls);
  dll_linked : linked h (chain_of hd tl ls);
  dll_head_prev : fld prev h hd = Some None;
  dll_tail_next : fld next h tl = Some None
}.

(** Two stores with the same keys and values at every object. *)
Definition same_data (h h' : gmap nat Node) : Prop :=
  (∀ x, fld key h' x = fld key h x) ∧ (∀ x, fld value h' x = fld value h x).

(** The state [s] holds the entries at the nodes [ls], from most to least
    recently used: the list and the index agree. *)
Record inv (s : LRUCache) (ls : list nat) : Prop := {
  inv_dll : dll (heap s) (head s) (tail s) ls;
  inv_index : ∀ k l,
    cache s !! k = Some l ↔ l ∈ ls ∧ fld key (heap s) l = Some k;
  inv_size : size (cache s) = length ls;
  inv_pos : (0 < capacity s)%Z;
  inv_cap : (Z.of_nat (length ls) ≤ capacity s)%Z;
  inv_head : entry (heap s) (head s) = (0, 0)%Z;
  inv_tail : entry (heap s) (tail s) = (0, 0)%Z
}.

(** The store that [__init__] builds: the two sentinels, linked. *)
Definition init_heap : gmap nat Node :=
  <[1 := mkNode 0 0 (Some 0) None]> (<[0 := mkNode 0 0 None (Some 1)]> ∅).

(** The values returned by a run, and the state it ends in. *)
Definition outputs {A B} (r : result (A * B)) : option A :=
  match r with
  | Ok (a, _) => Some a
  | Raise _ => None
  end.

Definition final {A} (r : result (A * LRUCache)) : option LRUCache :=
  match r with
  | Ok (_, s) => Some s
  | Raise _ => None
  end.

(** A run of [put]s, one per pair. *)
Definition puts (kvs : list (Z * Z)) : list op :=
  (λ kv, Put kv.1 kv.2) <$> kvs.

(** The state a session ends in; [blank] stands for a session that
    raised. *)
Definition blank : LRUCache := mkLRU ∅ 0 ∅ 0 0.

Definition state_after (cap : Z) (ops : list op) : LRUCache :=
  match session cap ops with
  | Ok (_, s) => s
  | Raise _ => blank
  end.

(** Capacity 2, after [put(1,1); put(2,2)]: a full cache. *)
Definition full2 : LRUCache :=
  Eval vm_compute in state_after 2 [Put 1 1; Put 2 2]%Z.

(** Capacity 1, after [put(5,-1)]. *)
Definition single : LRUCache :=
  Eval vm_compute in state_after 1 [Put 5 (-1)]%Z.

(** Capacity 3, after [put(1,1)]: a cache with room. *)
Definition room3 : LRUCache :=
  Eval vm_compute in state_after 3 [Put 1 1]%Z.


(** ** [display_cache_state] *)

(** [f"({current.key}:{current.value})"]. *)
Definition fmt_item (kv : Z * Z) : string :=
  "(" +:+ pretty kv.1 +:+ ":" +:+ pretty kv.2 +:+ ")".

(** The lines that [display_cache_state] prints; [None] when the
    traversal loop fails or does not end.  The method reads the state and
    writes nothing to it. *)
Definition display_cache_state (s : LRUCache) : option (list string) :=
  if decide (cache s = ∅) then Some ["Cache is empty"]
  else
    match items s with
    | None => None
    | Some its =>
        Some [ "Cache state (capacity: " +:+ pretty (capacity s)
                 +:+ ", size: " +:+ pretty (len s) +:+ "):";
               "Most Recent -> Least Recent:";
               String.concat " -> " (fmt_item <$> its);
               "" ]
    end.

(** ** Reference models *)

(** The value of a key in a list of entries. *)
Fixpoint assoc (k : Z) (its : list (Z * Z)) : option Z :=
  match its with
  | [] => None
  | (k', v) :: its' => if decide (k' = k) then Some v else assoc k its'
  end.

(** A cache as the list of its entries, most recently used first: a
    touched entry moves first, and a new entry pushes out what is beyond
    the capacity. *)
Definition model_step (cap : Z) (o : op) (its : list (Z * Z))
  : option Z * list (Z * Z) :=
  match o with
  | Get k =>
      match assoc k its with
      | Some v => (Some v, (k, v) :: filter (λ kv, kv.1 ≠ k) its)
      | None => (Some (-1)%Z, its)
      end
  | Put k v =>
      match assoc k its with
      | Some _ => (None, (k, v) :: filter (λ kv, kv.1 ≠ k) its)
      | None => (None, (k, v) :: take (Z.to_nat cap - 1) its)
      end
  end.

Fixpoint model_run (cap : Z) (ops : list op) (its : list (Z * Z))
  : list (option Z) * list (Z * Z) :=
  match ops with
  | [] => ([], its)
  | o :: ops' =>
      let '(r, its1) := model_step cap o its in
      let '(rs, its2) := model_run cap ops' its1 in
      (r :: rs, its2)
  end.

(** A dictionary that never forgets: [get] reads it, with -1 for a key
    it does not have, and [put] writes it. *)
Definition dict_step (o : op) (m : gmap Z Z) : option Z * gmap Z Z :=
  match o with
  | Get k => (Some (default (-1)%Z (m !! k)), m)
  | Put k v => (None, <[k := v]> m)
  end.

Fixpoint dict_run (ops : list op) (m : gmap Z Z) : list (option Z) :=
  match ops with
  | [] => []
  | o :: ops' =>
      let '(r, m1) := dict_step o m in
      r :: dict_run ops' m1
  end.

(** The key an operation touches, and the keys a run writes. *)
Definition op_key (o : op) : Z :=
  match o with
  | Get k => k
  | Put k _ => k
  end.

Definition put_keys (ops : list op) : gset Z :=
  list_to_set (omap (λ o, match o with Put k _ => Some k | Get _ => None end) ops).

Definition op_keys (ops : list op) : gset Z :=
  list_to_set (op_key <$> ops).

(** The entry of [k] stays in the list while the keys in front of it are
    among the keys of [T]. *)
Definition keeps (k v : Z) (T : gset Z) (its : list (Z * Z)) : Prop :=
  ∃ front back, its = front ++ (k, v) :: back ∧ NoDup its.*1 ∧
    ∀ x, x ∈ front.*1 → x ∈ T.

(** ** Lemmas on reading and writing the store *)

Section store_lemmas.
Context {A : Type} (f : Node → A).
Implicit Types (h : gmap nat Node) (g : Node → Node) (a b : nat).

Lemma fld_alter_frame h g a b :
  (∀ n, f (g n) = f n) → fld f (alter g a h) b = fld f h b.
Proof.
  intros Hfg. unfold fld. destruct (decide (a = b)) as [->|Hne].
  - rewrite lookup_alter_eq. destruct (h !! b); simpl; [by rewrite Hfg|done].
  - by rewrite lookup_alter_ne.
Qed.

Lemma fld_alter_ne h g a b : a ≠ b → fld f (alter g a h) b = fld f h b.
Proof. intros Hne. unfold fld. by rewrite lookup_alter_ne. Qed.

Lemma fld_alter_eq h g a x :
  (∀ n, f (g n) = x) → is_Some (h !! a) → fld f (alter g a h) a = Some x.
Proof.
  intros Hfg [n Hn]. unfold fld. rewrite lookup_alter_eq, Hn. simpl.
  by rewrite Hfg.
Qed.

Lemma fld_is_Some h a x : fld f h a = Some x → is_Some (h !! a).
Proof. unfold fld. destruct (h !! a); [eauto|done]. Qed.

Lemma load_fld (s : LRUCache) a x :
  fld f (heap s) a = Some x → load f (Some a) s = Ok (x, s).
Proof.
  unfold fld, load. destruct (heap s !! a); simpl; [|done].
  by intros [= ->].
Qed.
End store_lemmas.

Lemma is_Some_alter (h : gmap nat Node) g a b :
  is_Some (alter g a h !! b) ↔ is_Some (h !! b).
Proof.
  destruct (decide (a = b)) as [->|Hne].
  - rewrite lookup_alter_eq. destruct (h !! b); simpl; split; intros [? ?]; eauto; done.
  - by rewrite lookup_alter_ne.
Qed.

Lemma store_alter (s : LRUCache) g a :
  is_Some (heap s !! a) →
  store g (Some a) s = Ok (tt, with_heap (alter g a (heap s)) s).
Proof.
  intros [n Hn]. unfold store. rewrite Hn. do 3 f_equal.
  apply map_eq. intros i. destruct (decide (a = i)) as [->|Hne].
  - by rewrite lookup_insert_eq, lookup_alter_eq, Hn.
  - by rewrite lookup_insert_ne, lookup_alter_ne.
Qed.

Lemma bind_ok {A B} (m : M A) (k : A → M B) s a s' :
  m s = Ok (a, s') → bind m k s = k a s'.
Proof. unfold bind. by intros ->. Qed.

(** ** Unlinking and linking at the level of the store *)

Lemma fld_unlink_data {A} (f : Node → A) p q h x :
  (∀ r n, f (with_prev r n) = f n) → (∀ r n, f (with_next r n) = f n) →
  fld f (unlink p q h) x = fld f h x.
Proof.
  intros Hp Hn. unfold unlink.
  rewrite fld_alter_frame by (intros; apply Hp).
  by rewrite fld_alter_frame by (intros; apply Hn).
Qed.

Lemma fld_next_unlink p q h a :
  is_Some (h !! p) →
  fld next (unlink p q h) a = if decide (a = p) then Some (Some q) else fld next h a.
Proof.
  intros Hp. unfold unlink. rewrite fld_alter_frame by done.
  destruct (decide (a = p)) as [->|Hne].
  - by apply fld_alter_eq.
  - by apply fld_alter_ne.
Qed.

Lemma fld_prev_unlink p q h b :
  is_Some (h !! q) →
  fld prev (unlink p q h) b = if decide (b = q) then Some (Some p) else fld prev h b.
Proof.
  intros Hq. unfold unlink. destruct (decide (b = q)) as [->|Hne].
  - apply fld_alter_eq; [done|]. by apply is_Some_alter.
  - rewrite fld_alter_ne by done. by apply fld_alter_frame.
Qed.

Lemma is_Some_unlink p q h x : is_Some (unlink p q h !! x) ↔ is_Some (h !! x).
Proof. unfold unlink. by rewrite !is_Some_alter. Qed.

Lemma linked_unlink h c i p l q :
  NoDup c → linked h c →
  c !! i = Some p → c !! S i = Some l → c !! S (S i) = Some q →
  linked (unlink p q h) (delete (S i) c).
Proof.
  intros Hnd Hl Hp Hn Hq j a b Ha Hb.
  assert (is_Some (h !! p)) as Hip.
  { destruct (Hl _ _ _ Hp Hn) as [H1 _]. by eapply fld_is_Some. }
  assert (is_Some (h !! q)) as Hiq.
  { destruct (Hl _ _ _ Hn Hq) as [_ H1]. by eapply fld_is_Some. }
  unfold adjacent. rewrite fld_next_unlink, fld_prev_unlink by done.
  destruct (decide (S j < S i)) as [Hlt|Hge].
  - rewrite list_lookup_delete_lt in Ha by lia.
    rewrite list_lookup_delete_lt in Hb by lia.
    rewrite decide_False, decide_False.
    + by apply (Hl j).
    + intros ->. pose proof (NoDup_lookup _ _ _ _ Hnd Hb Hq). lia.
    + intros ->. pose proof (NoDup_lookup _ _ _ _ Hnd Ha Hp). lia.
  - destruct (decide (j = i)) as [->|Hne].
    + rewrite list_lookup_delete_lt in Ha by lia.
      rewrite list_lookup_delete_ge in Hb by lia.
      assert (a = p) as -> by congruence. assert (b = q) as -> by congruence.
      by rewrite !decide_True.
    + rewrite list_lookup_delete_ge in Ha by lia.
      rewrite list_lookup_delete_ge in Hb by lia.
      rewrite decide_False, decide_False.
      * by apply (Hl (S j)).
      * intros ->. pose proof (NoDup_lookup _ _ _ _ Hnd Hb Hq). lia.
      * intros ->. pose proof (NoDup_lookup _ _ _ _ Hnd Ha Hp). lia.
Qed.

Lemma fld_link_data {A} (f : Node → A) hd q n h x :
  (∀ r n, f (with_prev r n) = f n) → (∀ r n, f (with_next r n) = f n) →
  fld f (link hd q n h) x = fld f h x.
Proof.
  intros Hp Hn. unfold link.
  rewrite fld_alter_frame by (intros; apply Hn).
  rewrite fld_alter_frame by (intros; apply Hp).
  rewrite fld_alter_frame by (intros; apply Hn).
  by rewrite fld_alter_frame by (intros; apply Hp).
Qed.

Lemma is_Some_link hd q n h x : is_Some (link hd q n h !! x) ↔ is_Some (h !! x).
Proof. unfold link. by rewrite !is_Some_alter. Qed.

Lemma fld_next_link hd q n h a :
  is_Some (h !! hd) → is_Some (h !! n) → hd ≠ n →
  fld next (link hd q n h) a =
    if decide (a = hd) then Some (Some n)
    else if decide (a = n) then Some (Some q) else fld next h a.
Proof.
  intros Hhd Hn Hne. unfold link. destruct (decide (a = hd)) as [->|H1].
  - apply fld_alter_eq; [done|]. by rewrite !is_Some_alter.
  - rewrite fld_alter_ne by done. rewrite fld_alter_frame by done.
    destruct (decide (a = n)) as [->|H2].
    + apply fld_alter_eq; [done|]. by rewrite !is_Some_alter.
    + rewrite fld_alter_ne by done. by rewrite fld_alter_frame.
Qed.

Lemma fld_prev_link hd q n h b :
  is_Some (h !! q) → is_Some (h !! n) → q ≠ n →
  fld prev (link hd q n h) b =
    if decide (b = q) then Some (Some n)
    else if decide (b = n) then Some (Some hd) else fld prev h b.
Proof.
  intros Hq Hn Hne. unfold link. rewrite fld_alter_frame by done.
  destruct (decide (b = q)) as [->|H1].
  - apply fld_alter_eq; [done|]. by rewrite !is_Some_alter.
  - rewrite fld_alter_ne by done. rewrite fld_alter_frame by done.
    destruct (decide (b = n)) as [->|H2].
    + by apply fld_alter_eq.
    + by rewrite fld_alter_ne.
Qed.

Lemma linked_link h hd q rest n :
  NoDup (hd :: q :: rest) → linked h (hd :: q :: rest) →
  n ∉ hd :: q :: rest → is_Some (h !! n) →
  linked (link hd q n h) (hd :: n :: q :: rest).
Proof.
  intros Hnd Hl Hn Hin j a b Ha Hb.
  destruct (Hl 0 hd q eq_refl eq_refl) as [Hhq Hqh].
  assert (is_Some (h !! hd)) as Hihd by (by eapply fld_is_Some).
  assert (is_Some (h !! q)) as Hiq by (by eapply fld_is_Some).
  pose proof Hn as Hn'. apply not_elem_of_cons in Hn' as [Hne1 Hn'].
  apply not_elem_of_cons in Hn' as [Hne2 _].
  assert (hd ≠ q) as Hne3.
  { pose proof Hnd as Hnd'. apply NoDup_cons in Hnd' as [Hnd' _].
    by apply not_elem_of_cons in Hnd' as [? _]. }
  unfold adjacent. rewrite fld_next_link, fld_prev_link by done.
  destruct j as [|[|j]]; simpl in Ha, Hb.
  - injection Ha as <-. injection Hb as <-.
    rewrite decide_True by done. rewrite decide_False by done.
    by rewrite decide_True.
  - injection Ha as <-. injection Hb as <-.
    rewrite decide_False by done. rewrite decide_True by done.
    by rewrite decide_True.
  - assert ((hd :: q :: rest) !! S j = Some a) as Ha' by done.
    assert ((hd :: q :: rest) !! S (S j) = Some b) as Hb' by done.
    assert (a ≠ hd) as Ha1.
    { intros ->. pose proof (NoDup_lookup _ 0 (S j) _ Hnd eq_refl Ha'). lia. }
    assert (a ≠ n) as Ha2.
    { intros ->. apply Hn. by eapply list_elem_of_lookup_2. }
    assert (b ≠ q) as Hb1.
    { intros ->. pose proof (NoDup_lookup _ 1 (S (S j)) _ Hnd eq_refl Hb'). lia. }
    assert (b ≠ n) as Hb2.
    { intros ->. apply Hn. by eapply list_elem_of_lookup_2. }
    rewrite !decide_False by done. by apply (Hl (S j)).
Qed.

(** ** Running the list primitives *)

Lemma remove_node_run s c i p l q :
  linked (heap s) c →
  c !! i = Some p → c !! S i = Some l → c !! S (S i) = Some q →
  _remove_node (Some l) s = Ok (tt, with_heap (unlink p q (heap s)) s).
Proof.
  intros Hl Hp Hn Hq.
  destruct (Hl _ _ _ Hp Hn) as [Hpn Hnp].
  destruct (Hl _ _ _ Hn Hq) as [Hnq Hqn].
  unfold _remove_node.
  rewrite (bind_ok _ _ _ _ _ (load_fld prev s l _ Hnp)).
  rewrite (bind_ok _ _ _ _ _ (load_fld next s l _ Hnq)).
  rewrite (bind_ok _ _ _ _ _ (store_alter s _ p (fld_is_Some _ _ _ _ Hpn))).
  rewrite store_alter.
  - done.
  - simpl. apply is_Some_alter. by eapply fld_is_Some.
Qed.

Lemma add_node_run s q n :
  fld next (heap s) (head s) = Some (Some q) →
  is_Some (heap s !! q) → is_Some (heap s !! n) → n ≠ head s →
  _add_node (Some n) s = Ok (tt, with_heap (link (head s) q n (heap s)) s).
Proof.
  intros Hhq Hq Hn Hne.
  assert (is_Some (heap s !! head s)) as Hhd by (by eapply fld_is_Some).
  unfold _add_node, self_head.
  rewrite (bind_ok _ _ s _ s eq_refl).
  rewrite (bind_ok _ _ _ _ _ (store_alter s _ n Hn)).
  set (s1 := with_heap _ s).
  rewrite (bind_ok _ _ s1 _ s1 eq_refl).
  assert (fld next (heap s1) (head s) = Some (Some q)) as H1.
  { subst s1. simpl. by rewrite fld_alter_frame. }
  rewrite (bind_ok _ _ _ _ _ (load_fld next s1 _ _ H1)).
  assert (is_Some (heap s1 !! n)) as Hn1 by (subst s1; simpl; by apply is_Some_alter).
  rewrite (bind_ok _ _ _ _ _ (store_alter s1 _ n Hn1)).
  set (s2 := with_heap _ s1).
  rewrite (bind_ok _ _ s2 _ s2 eq_refl).
  assert (fld next (heap s2) (head s) = Some (Some q)) as H2.
  { subst s2. simpl. by rewrite fld_alter_ne. }
  rewrite (bind_ok _ _ _ _ _ (load_fld next s2 _ _ H2)).
  assert (is_Some (heap s2 !! q)) as Hq2.
  { subst s2 s1. simpl. by rewrite !is_Some_alter. }
  rewrite (bind_ok _ _ _ _ _ (store_alter s2 _ q Hq2)).
  set (s3 := with_heap _ s2).
  rewrite (bind_ok _ _ s3 _ s3 eq_refl).
  rewrite store_alter.
  - done.
  - subst s3 s2 s1. simpl. by rewrite !is_Some_alter.
Qed.

(** ** The list between the sentinels *)

Lemma same_data_refl h : same_data h h.
Proof. by split. Qed.

Lemma same_data_trans h1 h2 h3 :
  same_data h1 h2 → same_data h2 h3 → same_data h1 h3.
Proof. intros [H1 H2] [H3 H4]. split; intros x; [by rewrite H3|by rewrite H4]. Qed.

Lemma same_data_is_Some h h' x :
  same_data h h' → (is_Some (h' !! x) ↔ is_Some (h !! x)).
Proof.
  intros [Hk _]. specialize (Hk x). unfold fld in Hk.
  destruct (h' !! x), (h !! x); simpl in Hk; try done; split; intros [? ?]; eauto; done.
Qed.

Lemma chain_of_lookup_S hd tl ls j l :
  ls !! j = Some l → chain_of hd tl ls !! S j = Some l.
Proof. intros H. simpl. by apply lookup_app_l_Some. Qed.

Lemma chain_of_lookup_last hd tl ls :
  chain_of hd tl ls !! S (length ls) = Some tl.
Proof. simpl. rewrite lookup_app_r by lia. by rewrite Nat.sub_diag. Qed.

Lemma chain_of_delete hd tl ls j :
  j < length ls → delete (S j) (chain_of hd tl ls) = chain_of hd tl (delete j ls).
Proof.
  intros Hj. unfold chain_of. simpl. f_equal.
  rewrite !delete_take_drop. rewrite take_app_le by lia.
  rewrite drop_app_le by lia. by rewrite <- app_assoc.
Qed.

Lemma chain_of_in_heap h hd tl ls x :
  linked h (chain_of hd tl ls) → x ∈ chain_of hd tl ls → is_Some (h !! x).
Proof.
  intros Hl Hx. apply list_elem_of_lookup_1 in Hx as [i Hi].
  destruct i as [|i].
  - assert (∃ b, chain_of hd tl ls !! 1 = Some b) as [b Hb].
    { destruct ls; simpl; eauto. }
    destruct (Hl _ _ _ Hi Hb) as [H1 _]. by eapply fld_is_Some.
  - assert (∃ a, chain_of hd tl ls !! i = Some a) as [a Ha].
    { apply lookup_lt_is_Some. apply lookup_lt_Some in Hi. lia. }
    destruct (Hl _ _ _ Ha Hi) as [_ H1]. by eapply fld_is_Some.
Qed.

Lemma NoDup_delete_at (c : list nat) i x :
  NoDup c → c !! i = Some x → (x ∉ delete i c) ∧ NoDup (delete i c).
Proof.
  intros Hnd Hi. apply delete_Permutation in Hi.
  rewrite Hi in Hnd. by apply NoDup_cons in Hnd.
Qed.

Lemma same_data_unlink p q h : same_data h (unlink p q h).
Proof. split; intros x; by apply fld_unlink_data. Qed.

Lemma same_data_link hd q n h : same_data h (link hd q n h).
Proof. split; intros x; by apply fld_link_data. Qed.

(** [_remove_node] of the [j]-th node of the list. *)
Lemma remove_node_spec s ls j l :
  dll (heap s) (head s) (tail s) ls → ls !! j = Some l →
  ∃ h', _remove_node (Some l) s = Ok (tt, with_heap h' s) ∧
        dll h' (head s) (tail s) (delete j ls) ∧
        same_data (heap s) h'.
Proof.
  intros [Hnd Hl Hhp Htn] Hj.
  set (c := chain_of (head s) (tail s) ls) in *.
  assert (j < length ls) as Hlt by (by eapply lookup_lt_Some).
  assert (c !! S j = Some l) as Hcl by (by apply chain_of_lookup_S).
  assert (length c = S (S (length ls))) as Hlen.
  { subst c. unfold chain_of. simpl. rewrite length_app. simpl. lia. }
  destruct (lookup_lt_is_Some_2 c j) as [p Hp]; [lia|].
  destruct (lookup_lt_is_Some_2 c (S (S j))) as [q Hq]; [lia|].
  exists (unlink p q (heap s)). split; [|split].
  - by eapply remove_node_run.
  - assert (is_Some (heap s !! p)) as Hip.
    { eapply chain_of_in_heap; [done|]. by eapply list_elem_of_lookup_2. }
    assert (is_Some (heap s !! q)) as Hiq.
    { eapply chain_of_in_heap; [done|]. by eapply list_elem_of_lookup_2. }
    split.
    + rewrite <- chain_of_delete by done.
      by eapply NoDup_delete_at.
    + rewrite <- chain_of_delete by done. by eapply linked_unlink.
    + rewrite fld_prev_unlink by done. rewrite decide_False; [done|].
      intros Heq. rewrite <- Heq in Hq.
      pose proof (NoDup_lookup c 0 (S (S j)) _ Hnd eq_refl Hq). lia.
    + rewrite fld_next_unlink by done. rewrite decide_False; [done|].
      intros Heq. rewrite <- Heq in Hp.
      pose proof (NoDup_lookup c _ _ _ Hnd Hp (chain_of_lookup_last _ _ _)). lia.
  - apply same_data_unlink.
Qed.

(** [_add_node] of a node of the store that is not in the list. *)
Lemma add_node_spec s ls n :
  dll (heap s) (head s) (tail s) ls →
  n ∉ chain_of (head s) (tail s) ls → is_Some (heap s !! n) →
  ∃ h', _add_node (Some n) s = Ok (tt, with_heap h' s) ∧
        dll h' (head s) (tail s) (n :: ls) ∧
        same_data (heap s) h'.
Proof.
  intros [Hnd Hl Hhp Htn] Hn Hin.
  assert (∃ q rest, ls ++ [tail s] = q :: rest) as (q & rest & Hqr).
  { destruct ls; simpl; eauto. }
  assert (chain_of (head s) (tail s) ls = head s :: q :: rest) as Hc.
  { unfold chain_of. by rewrite Hqr. }
  rewrite Hc in *.
  destruct (Hl 0 _ _ eq_refl eq_refl) as [Hhq Hqh].
  assert (is_Some (heap s !! head s)) as Hih by (by eapply fld_is_Some).
  assert (is_Some (heap s !! q)) as Hiq by (by eapply fld_is_Some).
  apply not_elem_of_cons in Hn as [Hne1 Hn].
  pose proof Hn as Hn'. apply not_elem_of_cons in Hn' as [Hne2 _].
  apply NoDup_cons in Hnd as [Hh Hnd].
  pose proof Hh as Hh'. apply not_elem_of_cons in Hh' as [Hne3 _].
  assert (tail s ∈ q :: rest) as Ht.
  { rewrite <- Hqr. apply elem_of_app. right. apply list_elem_of_singleton. done. }
  exists (link (head s) q n (heap s)). split; [|split].
  - by apply add_node_run.
  - assert (chain_of (head s) (tail s) (n :: ls) = head s :: n :: q :: rest) as Hc'.
    { unfold chain_of. simpl. by rewrite Hqr. }
    split; rewrite ?Hc'.
    + apply NoDup_cons. split.
      { apply not_elem_of_cons. split; [congruence|done]. }
      apply NoDup_cons. split; [done|done].
    + apply linked_link; [|done| |done].
      * by apply NoDup_cons.
      * by apply not_elem_of_cons.
    + rewrite fld_prev_link by congruence.
      by rewrite !decide_False by congruence.
    + rewrite fld_next_link by congruence.
      assert (tail s ≠ head s) by (intros Heq; by rewrite Heq in Ht).
      assert (tail s ≠ n) by (intros Heq; by rewrite Heq in Ht).
      by rewrite !decide_False by done.
  - apply same_data_link.
Qed.

(** [_move_to_head] of the [j]-th node of the list. *)
Lemma move_to_head_spec s ls j l :
  dll (heap s) (head s) (tail s) ls → ls !! j = Some l →
  ∃ h', _move_to_head (Some l) s = Ok (tt, with_heap h' s) ∧
        dll h' (head s) (tail s) (l :: delete j ls) ∧
        same_data (heap s) h'.
Proof.
  intros Hd Hj.
  destruct (remove_node_spec s ls j l Hd Hj) as (h1 & Hrun1 & Hd1 & Hs1).
  assert (j < length ls) as Hlt by (by eapply lookup_lt_Some).
  destruct (add_node_spec (with_heap h1 s) (delete j ls) l) as (h2 & Hrun2 & Hd2 & Hs2).
  - done.
  - simpl. rewrite <- chain_of_delete by done.
    eapply NoDup_delete_at; [by apply Hd|]. by apply chain_of_lookup_S.
  - simpl. apply (same_data_is_Some _ _ _ Hs1).
    eapply chain_of_in_heap; [by apply Hd|].
    eapply list_elem_of_lookup_2. by apply chain_of_lookup_S.
  - exists h2. split; [|split].
    + unfold _move_to_head. by rewrite (bind_ok _ _ _ _ _ Hrun1).
    + done.
    + by eapply same_data_trans.
Qed.

(** [_pop_tail] on a list that is not empty. *)
Lemma pop_tail_spec s ls e :
  dll (heap s) (head s) (tail s) (ls ++ [e]) →
  ∃ h', _pop_tail s = Ok (Some e, with_heap h' s) ∧
        dll h' (head s) (tail s) ls ∧
        same_data (heap s) h'.
Proof.
  intros Hd.
  assert ((ls ++ [e]) !! length ls = Some e) as He.
  { rewrite lookup_app_r by lia. by rewrite Nat.sub_diag. }
  destruct (remove_node_spec s _ _ _ Hd He) as (h1 & Hrun1 & Hd1 & Hs1).
  replace (delete (length ls) (ls ++ [e])) with ls in Hd1.
  2:{ by rewrite delete_middle, app_nil_r. }
  exists h1. split; [|done].
  destruct Hd as [_ Hl _ _].
  destruct (Hl (S (length ls)) e (tail s)) as [_ Hte].
  { by apply chain_of_lookup_S. }
  { replace (S (length ls)) with (length (ls ++ [e])).
    - apply chain_of_lookup_last.
    - rewrite length_app. simpl. lia. }
  unfold _pop_tail, self_tail.
  rewrite (bind_ok _ _ s _ s eq_refl).
  rewrite (bind_ok _ _ _ _ _ (load_fld prev s _ _ Hte)).
  by rewrite (bind_ok _ _ _ _ _ Hrun1).
Qed.

(** ** The traversal finds the list *)

Lemma linked_tail h a c : linked h (a :: c) → linked h c.
Proof. intros Hl i x y Hx Hy. by apply (Hl (S i)). Qed.

Lemma walk_linked h tl ls : ∀ a fuel x,
  linked h (a :: ls ++ [tl]) → tl ∉ ls → length ls < fuel →
  fld next h a = Some x → walk fuel h tl x = Some ls.
Proof.
  induction ls as [|b ls IH]; intros a fuel x Hl Htl Hfuel Hx.
  - destruct (Hl 0 a tl eq_refl eq_refl) as [Hn _].
    rewrite Hn in Hx. injection Hx as <-.
    destruct fuel as [|fuel]; [simpl in Hfuel; lia|].
    simpl. by rewrite decide_True.
  - destruct (Hl 0 a b eq_refl eq_refl) as [Hn _].
    rewrite Hn in Hx. injection Hx as <-.
    destruct fuel as [|fuel]; [simpl in Hfuel; lia|].
    apply not_elem_of_cons in Htl as [Hne Htl].
    simpl. rewrite decide_False by congruence.
    apply linked_tail in Hl.
    destruct (Hl 0 b (List.hd tl (ls ++ [tl]))) as [Hb _]; [done| |].
    { by destruct ls. }
    apply fld_is_Some in Hb as [n Hb]. rewrite Hb.
    rewrite (IH b fuel (next n)); [done|done|done| |].
    + simpl in Hfuel. lia.
    + unfold fld. by rewrite Hb.
Qed.

Lemma NoDup_length_le_size (h : gmap nat Node) (c : list nat) :
  NoDup c → (∀ x, x ∈ c → is_Some (h !! x)) → length c ≤ size h.
Proof.
  intros Hnd Hin.
  rewrite <- (size_list_to_set (C := gset nat) c) by done.
  rewrite <- (size_dom (D := gset nat) h).
  apply subseteq_size. intros x Hx.
  apply elem_of_list_to_set in Hx. apply elem_of_dom. by apply Hin.
Qed.

Lemma chain_dll s ls :
  dll (heap s) (head s) (tail s) ls → chain s = Some ls.
Proof.
  intros [Hnd Hl _ _]. unfold chain.
  destruct (chain_of_in_heap _ _ _ _ (head s) Hl) as [n Hn]; [by left|].
  rewrite Hn. eapply walk_linked; [done| | |].
  - apply NoDup_cons in Hnd as [_ Hnd]. apply NoDup_app in Hnd as (_ & Hd & _).
    intros Hin. apply (Hd _ Hin). by apply list_elem_of_singleton.
  - pose proof (NoDup_length_le_size (heap s) _ Hnd) as Hle.
    unfold chain_of in Hle. simpl in Hle. rewrite length_app in Hle. simpl in Hle.
    assert (S (length ls + 1) ≤ size (heap s)); [|lia].
    apply Hle. intros x Hx. by eapply chain_of_in_heap.
  - unfold fld. by rewrite Hn.
Qed.

(** ** The representation invariant *)

Lemma init_ok cap :
  (0 < cap)%Z → __init__ cap = Ok (mkLRU init_heap cap ∅ 0 1).
Proof.
  intros Hpos. unfold __init__. rewrite decide_False by lia.
  by vm_compute.
Qed.

Lemma init_inv cap : (0 < cap)%Z → inv (mkLRU init_heap cap ∅ 0 1) [].
Proof.
  intros Hpos. split; simpl; try done.
  - split; simpl; try done.
    + apply NoDup_cons. split; [|apply NoDup_singleton].
      by intros ?%list_elem_of_singleton.
    + intros [|[|i]] a b Ha Hb; simpl in *; try done.
      by injection Ha as <-; injection Hb as <-.
  - intros k l. rewrite lookup_empty. split; [done|].
    intros [Hin _]. by apply elem_of_nil in Hin.
  - lia.
Qed.

Lemma entry_eq h h' x :
  fld key h' x = fld key h x → fld value h' x = fld value h x →
  entry h' x = entry h x.
Proof.
  unfold fld, entry. destruct (h' !! x), (h !! x); simpl; try done.
  by intros [= ->] [= ->].
Qed.

Lemma entry_fld h x k v :
  is_Some (h !! x) →
  entry h x = (k, v) ↔ fld key h x = Some k ∧ fld value h x = Some v.
Proof.
  intros [n Hn]. unfold entry, fld. rewrite Hn. simpl. split.
  - by intros [= -> ->].
  - by intros [[= ->] [= ->]].
Qed.

Lemma dll_frame h h' hd tl ls :
  (∀ x, x ∈ chain_of hd tl ls → fld next h' x = fld next h x) →
  (∀ x, x ∈ chain_of hd tl ls → fld prev h' x = fld prev h x) →
  dll h hd tl ls → dll h' hd tl ls.
Proof.
  intros Hn Hp [Hnd Hl Hhp Htn]. split; [done| | |].
  - intros i a b Ha Hb. destruct (Hl i a b Ha Hb) as [H1 H2]. split.
    + rewrite Hn; [done|]. by eapply list_elem_of_lookup_2.
    + rewrite Hp; [done|]. by eapply list_elem_of_lookup_2.
  - rewrite Hp; [done|]. by left.
  - rewrite Hn; [done|]. right. apply elem_of_app. right.
    by apply list_elem_of_singleton.
Qed.

Lemma inv_not_sentinel s ls x :
  inv s ls → x ∈ ls → x ≠ head s ∧ x ≠ tail s.
Proof.
  intros [[Hnd _ _ _] _ _ _ _ _ _] Hx.
  apply NoDup_cons in Hnd as [Hh Hnd].
  apply NoDup_app in Hnd as (_ & Ht & _). split.
  - intros ->. apply Hh. apply elem_of_app. by left.
  - intros ->. apply (Ht _ Hx). by apply list_elem_of_singleton.
Qed.

(** Moving nodes around, and changing values of live nodes, keeps the
    invariant. *)
Lemma inv_reorder s ls ls' h' :
  inv s ls → dll h' (head s) (tail s) ls' → ls' ≡ₚ ls →
  (∀ x, fld key h' x = fld key (heap s) x) →
  (∀ x, x ∉ ls → fld value h' x = fld value (heap s) x) →
  inv (with_heap h' s) ls'.
Proof.
  intros Hinv Hd Hperm Hk Hv.
  pose proof (inv_not_sentinel s ls) as Hns.
  destruct Hinv as [Hd0 Hidx Hsz Hpos Hcap Hh Ht].
  split; simpl; try done.
  - intros k l. rewrite Hidx, Hk. by rewrite Hperm.
  - by rewrite Hperm.
  - by rewrite Hperm.
  - rewrite <- Hh. apply entry_eq; [done|]. apply Hv.
    intros Hin. by destruct (Hns _ (Build_inv _ _ Hd0 Hidx Hsz Hpos Hcap Hh Ht) Hin).
  - rewrite <- Ht. apply entry_eq; [done|]. apply Hv.
    intros Hin. by destruct (Hns _ (Build_inv _ _ Hd0 Hidx Hsz Hpos Hcap Hh Ht) Hin).
Qed.

(** ** The public operations on a state that satisfies the invariant *)

Lemma get_miss s k : cache s !! k = None → get k s = Ok ((-1)%Z, s).
Proof.
  intros Hc. unfold get, cache_get.
  rewrite (bind_ok _ _ s _ s eq_refl). by rewrite Hc.
Qed.

Lemma get_hit_spec s ls k l :
  inv s ls → cache s !! k = Some l →
  ∃ j v h', ls !! j = Some l ∧ entry (heap s) l = (k, v) ∧
    get k s = Ok (v, with_heap h' s) ∧
    inv (with_heap h' s) (l :: delete j ls) ∧
    same_data (heap s) h'.
Proof.
  intros Hinv Hc.
  pose proof (inv_index _ _ Hinv k l) as Hidx. apply Hidx in Hc as Hl.
  destruct Hl as [Hin Hkey].
  apply list_elem_of_lookup_1 in Hin as [j Hj].
  destruct (move_to_head_spec s ls j l (inv_dll _ _ Hinv) Hj) as (h' & Hrun & Hd & Hs).
  pose proof (fld_is_Some _ _ _ _ Hkey) as [n Hn].
  exists j, (value n), h'. split; [done|]. split; [|split; [|split]].
  - apply entry_fld; [by eexists|]. split; [done|]. unfold fld. by rewrite Hn.
  - unfold get, cache_get. rewrite (bind_ok _ _ s _ s eq_refl). rewrite Hc.
    rewrite (bind_ok _ _ _ _ _ Hrun). apply load_fld. simpl.
    destruct Hs as [_ Hv]. rewrite Hv. unfold fld. by rewrite Hn.
  - destruct Hs as [Hk Hv]. apply (inv_reorder s ls); try done.
    symmetry. by apply delete_Permutation.
  - done.
Qed.

Lemma put_update_spec s ls k v l :
  inv s ls → cache s !! k = Some l →
  ∃ j h', ls !! j = Some l ∧
    put k v s = Ok (tt, with_heap h' s) ∧
    inv (with_heap h' s) (l :: delete j ls) ∧
    (∀ x, fld key h' x = fld key (heap s) x) ∧
    (∀ x, x ≠ l → fld value h' x = fld value (heap s) x) ∧
    entry h' l = (k, v).
Proof.
  intros Hinv Hc.
  pose proof (inv_index _ _ Hinv k l) as Hidx. apply Hidx in Hc as Hl.
  destruct Hl as [Hin Hkey].
  apply list_elem_of_lookup_1 in Hin as [j Hj].
  pose proof (fld_is_Some _ _ _ _ Hkey) as Hsome.
  set (h1 := alter (with_value v) l (heap s)).
  assert (dll h1 (head s) (tail s) ls) as Hd1.
  { eapply dll_frame; [| |apply (inv_dll _ _ Hinv)]; intros x _;
      by apply fld_alter_frame. }
  destruct (move_to_head_spec (with_heap h1 s) ls j l Hd1 Hj) as (h' & Hrun & Hd & Hk & Hv).
  simpl in *.
  assert (∀ x, fld key h' x = fld key (heap s) x) as Hk'.
  { intros x. rewrite Hk. by apply fld_alter_frame. }
  assert (∀ x, x ≠ l → fld value h' x = fld value (heap s) x) as Hv'.
  { intros x Hne. rewrite Hv. by apply fld_alter_ne. }
  exists j, h'. split; [done|]. split; [|split; [|split; [|split]]]; try done.
  - unfold put, cache_get. rewrite (bind_ok _ _ s _ s eq_refl). rewrite Hc.
    rewrite (bind_ok _ _ _ _ _ (store_alter s _ l Hsome)). apply Hrun.
  - apply (inv_reorder s ls); try done.
    + symmetry. by apply delete_Permutation.
    + intros x Hx. apply Hv'. intros ->. apply Hx.
      by eapply list_elem_of_lookup_2.
  - apply entry_fld.
    + apply fld_is_Some with (f := key) (x := k). by rewrite Hk'.
    + split; [by rewrite Hk'|]. rewrite Hv. by apply fld_alter_eq.
Qed.

(** A new object changes nothing for the objects of the store. *)
Lemma fld_alloc {A} (f : Node → A) (h : gmap nat Node) nd x :
  is_Some (h !! x) → fld f (<[fresh (dom h) := nd]> h) x = fld f h x.
Proof.
  intros Hx. unfold fld. rewrite lookup_insert_ne; [done|].
  intros <-. apply elem_of_dom in Hx. by apply is_fresh in Hx.
Qed.

Lemma fresh_not_in_chain s ls :
  inv s ls → fresh (dom (heap s)) ∉ chain_of (head s) (tail s) ls.
Proof.
  intros Hinv Hin.
  apply (chain_of_in_heap (heap s)) in Hin; [|apply Hinv].
  apply elem_of_dom in Hin. by apply is_fresh in Hin.
Qed.

Lemma inv_alloc s ls nd :
  inv s ls →
  inv (with_heap (<[fresh (dom (heap s)) := nd]> (heap s)) s) ls.
Proof.
  intros Hinv.
  assert (∀ x, x ∈ chain_of (head s) (tail s) ls → is_Some (heap s !! x)) as Hin.
  { intros x. apply chain_of_in_heap. apply Hinv. }
  destruct Hinv as [Hd Hidx Hsz Hpos Hcap Hh Ht].
  split; simpl; try done.
  - eapply dll_frame; [| |done]; intros x Hx; apply fld_alloc; by apply Hin.
  - intros k l. rewrite Hidx. split; intros [Hl Hk]; (split; [done|]).
    + rewrite fld_alloc; [done|]. apply Hin. right. apply elem_of_app. by left.
    + rewrite fld_alloc in Hk; [done|]. apply Hin. right. apply elem_of_app. by left.
  - rewrite <- Hh. apply entry_eq; apply fld_alloc; apply Hin; by left.
  - rewrite <- Ht.
    apply entry_eq; apply fld_alloc; apply Hin; right; apply elem_of_app; right;
      by apply list_elem_of_singleton.
Qed.

(** The eviction in [put]: [_pop_tail], then [del self.cache[...]]. *)
Lemma evict_spec s ls e :
  inv s (ls ++ [e]) →
  ∃ h' ke ve, entry (heap s) e = (ke, ve) ∧ cache s !! ke = Some e ∧
    (tail_node <- _pop_tail ;; tk <- load key tail_node ;; cache_del tk) s
      = Ok (tt, with_cache (delete ke (cache s)) (with_heap h' s)) ∧
    inv (with_cache (delete ke (cache s)) (with_heap h' s)) ls ∧
    same_data (heap s) h'.
Proof.
  intros Hinv.
  destruct (pop_tail_spec s ls e (inv_dll _ _ Hinv)) as (h' & Hrun & Hd & Hs).
  assert (e ∈ ls ++ [e]) as He.
  { apply elem_of_app. right. by apply list_elem_of_singleton. }
  assert (is_Some (heap s !! e)) as [n Hn].
  { eapply chain_of_in_heap; [apply Hinv|]. by right; apply elem_of_app; left. }
  assert (fld key (heap s) e = Some (key n)) as Hke by (unfold fld; by rewrite Hn).
  assert (cache s !! key n = Some e) as Hc by (by apply (inv_index _ _ Hinv)).
  exists h', (key n), (value n). split; [|split; [done|split; [|split; [|done]]]].
  - unfold entry. by rewrite Hn.
  - rewrite (bind_ok _ _ _ _ _ Hrun).
    assert (fld key (heap (with_heap h' s)) e = Some (key n)) as Hke'.
    { simpl. destruct Hs as [Hk _]. by rewrite Hk. }
    rewrite (bind_ok _ _ _ _ _ (load_fld key _ _ _ Hke')).
    unfold cache_del. simpl. by rewrite Hc.
  - pose proof (inv_not_sentinel _ _ e Hinv He) as [Heh Het].
    assert (e ∉ ls) as Hnin.
    { destruct Hinv as [[Hnd _ _ _] _ _ _ _ _ _].
      apply NoDup_cons in Hnd as [_ Hnd]. rewrite <- app_assoc in Hnd.
      apply NoDup_app in Hnd as (_ & Hdis & _). intros Hin.
      apply (Hdis _ Hin). by left. }
    destruct Hs as [Hk Hv].
    destruct Hinv as [Hd0 Hidx Hsz Hpos Hcap Hh Ht].
    split; simpl; try done.
    + intros k l. rewrite Hk. split.
      * intros Hl. apply lookup_delete_Some in Hl as [Hne Hl].
        apply Hidx in Hl as [Hin Hkl]. split; [|done].
        apply elem_of_app in Hin as [Hin|Hin]; [done|].
        apply list_elem_of_singleton in Hin as ->. congruence.
      * intros [Hin Hkl]. apply lookup_delete_Some. split.
        -- intros <-. assert (cache s !! key n = Some l) as Hc2.
           { apply Hidx. split; [|done]. apply elem_of_app. by left. }
           rewrite Hc in Hc2. injection Hc2 as ->. done.
        -- apply Hidx. split; [|done]. apply elem_of_app. by left.
    + rewrite map_size_delete, Hc, Hsz. rewrite length_app. simpl. lia.
    + rewrite length_app in Hcap. lia.
    + rewrite <- Hh. by apply entry_eq.
    + rewrite <- Ht. by apply entry_eq.
Qed.

(** The insertion in [put]: [self.cache[key] = new_node], then
    [_add_node]. *)
Lemma insert_spec s ls k v n :
  inv s ls → (Z.of_nat (length ls) < capacity s)%Z →
  cache s !! k = None →
  n ∉ chain_of (head s) (tail s) ls → entry (heap s) n = (k, v) →
  is_Some (heap s !! n) →
  ∃ h', (cache_set k (Some n) ;;; _add_node (Some n)) s
      = Ok (tt, with_heap h' (with_cache (<[k := n]> (cache s)) s)) ∧
    inv (with_heap h' (with_cache (<[k := n]> (cache s)) s)) (n :: ls) ∧
    same_data (heap s) h'.
Proof.
  intros Hinv Hlt Hc Hn Hent Hsome.
  destruct (add_node_spec (with_cache (<[k := n]> (cache s)) s) ls n)
    as (h' & Hrun & Hd & Hs); try done.
  { apply Hinv. }
  simpl in Hd, Hs.
  exists h'. split; [|split; [|done]].
  - unfold cache_set at 1.
    by rewrite (bind_ok _ _ s _ (with_cache (<[k := n]> (cache s)) s) eq_refl).
  - apply entry_fld in Hent as [Hkn Hvn]; [|done].
    destruct Hs as [Hk Hv].
    destruct Hinv as [Hd0 Hidx Hsz Hpos Hcap Hh Ht].
    split; simpl; try done.
    + intros k' l. rewrite Hk. split.
      * intros Hl. apply lookup_insert_Some in Hl as [[<- <-]|[Hne Hl]].
        -- split; [by left|done].
        -- apply Hidx in Hl as [Hin Hkl]. split; [by right|done].
      * intros [Hin Hkl]. apply lookup_insert_Some.
        apply elem_of_cons in Hin as [->|Hin].
        -- left. split; [congruence|done].
        -- right. split.
           ++ intros <-. assert (cache s !! k = Some l) as Hc2 by (by apply Hidx).
              congruence.
           ++ by apply Hidx.
    + rewrite map_size_insert_None by done. by rewrite Hsz.
    + lia.
    + rewrite <- Hh. by apply entry_eq.
    + rewrite <- Ht. by apply entry_eq.
Qed.

Lemma same_data_entry h h' x : same_data h h' → entry h' x = entry h x.
Proof. intros [Hk Hv]. by apply entry_eq. Qed.

Lemma entry_alloc_new (h : gmap nat Node) k v p x :
  entry (<[fresh (dom h) := mkNode k v p x]> h) (fresh (dom h)) = (k, v).
Proof. unfold entry. by rewrite lookup_insert_eq. Qed.

Lemma entry_alloc_old (h : gmap nat Node) nd x :
  is_Some (h !! x) → entry (<[fresh (dom h) := nd]> h) x = entry h x.
Proof. intros Hx. apply entry_eq; by apply fld_alloc. Qed.

(** [put] of a new key while there is room. *)
Lemma put_room_spec s ls k v :
  inv s ls → cache s !! k = None →
  (Z.of_nat (size (cache s)) < capacity s)%Z →
  let n := fresh (dom (heap s)) in
  ∃ h', put k v s
      = Ok (tt, mkLRU h' (capacity s) (<[k := n]> (cache s)) (head s) (tail s)) ∧
    inv (mkLRU h' (capacity s) (<[k := n]> (cache s)) (head s) (tail s)) (n :: ls) ∧
    same_data (<[n := mkNode k v None None]> (heap s)) h'.
Proof.
  intros Hinv Hc Hlt n.
  set (s1 := with_heap (<[n := mkNode k v None None]> (heap s)) s).
  assert (inv s1 ls) as Hinv1 by apply (inv_alloc _ _ _ Hinv).
  destruct (insert_spec s1 ls k v n Hinv1) as (h' & Hrun & Hinv' & Hs).
  - rewrite <- (inv_size _ _ Hinv). done.
  - done.
  - apply (fresh_not_in_chain s ls Hinv).
  - apply entry_alloc_new.
  - subst s1. simpl. by rewrite lookup_insert_eq.
  - exists h'. split; [|split; [apply Hinv'|apply Hs]].
    unfold put, cache_get. rewrite (bind_ok _ _ s _ s eq_refl). rewrite Hc.
    unfold alloc. rewrite (bind_ok _ _ s _ s1 eq_refl).
    unfold cache_len. rewrite (bind_ok _ _ s1 _ s1 eq_refl).
    unfold self_capacity. rewrite (bind_ok _ _ s1 _ s1 eq_refl).
    simpl. rewrite decide_False by lia.
    rewrite (bind_ok _ _ s1 _ s1 eq_refl). apply Hrun.
Qed.

(** [put] of a new key into a full cache. *)
Lemma put_full_spec s ls k v :
  inv s ls → cache s !! k = None →
  (capacity s ≤ Z.of_nat (size (cache s)))%Z →
  let n := fresh (dom (heap s)) in
  ∃ ls0 e ke ve h', ls = ls0 ++ [e] ∧ entry (heap s) e = (ke, ve) ∧
    cache s !! ke = Some e ∧
    put k v s
      = Ok (tt, mkLRU h' (capacity s) (<[k := n]> (delete ke (cache s)))
                  (head s) (tail s)) ∧
    inv (mkLRU h' (capacity s) (<[k := n]> (delete ke (cache s)))
           (head s) (tail s)) (n :: ls0) ∧
    same_data (<[n := mkNode k v None None]> (heap s)) h'.
Proof.
  intros Hinv Hc Hfull n.
  assert (∃ ls0 e, ls = ls0 ++ [e]) as (ls0 & e & ->).
  { destruct ls as [|x ls] using rev_ind; [|by eauto].
    pose proof (inv_size _ _ Hinv) as Hsz. pose proof (inv_pos _ _ Hinv).
    simpl in Hsz. lia. }
  set (s1 := with_heap (<[n := mkNode k v None None]> (heap s)) s).
  assert (inv s1 (ls0 ++ [e])) as Hinv1 by apply (inv_alloc _ _ _ Hinv).
  destruct (evict_spec s1 ls0 e Hinv1) as (h2 & ke & ve & Hent & Hke & Hrun2 & Hinv2 & Hs2).
  set (s2 := with_cache (delete ke (cache s1)) (with_heap h2 s1)) in *.
  assert (is_Some (heap s !! e)) as Hie.
  { eapply chain_of_in_heap; [apply Hinv|]. right. rewrite <- app_assoc.
    apply elem_of_app. right. by left. }
  destruct (insert_spec s2 ls0 k v n Hinv2) as (h' & Hrun & Hinv' & Hs).
  - pose proof (inv_cap _ _ Hinv) as Hcap. rewrite length_app in Hcap.
    simpl in *. lia.
  - subst s2 s1. simpl. apply lookup_delete_None. by right.
  - subst s2 s1. simpl. intros Hin.
    apply (fresh_not_in_chain s _ Hinv). fold n. unfold chain_of in *.
    rewrite elem_of_cons, elem_of_app in Hin.
    rewrite elem_of_cons, !elem_of_app. tauto.
  - subst s2 s1. simpl. rewrite (same_data_entry _ _ _ Hs2). simpl.
    apply entry_alloc_new.
  - subst s2 s1. simpl. apply (same_data_is_Some _ _ _ Hs2). simpl.
    by rewrite lookup_insert_eq.
  - exists ls0, e, ke, ve, h'. split; [done|].
    split; [|split; [apply Hke|split; [|split; [apply Hinv'|]]]].
    + rewrite <- Hent. subst s1. simpl. symmetry. by apply entry_alloc_old.
    + unfold put, cache_get. rewrite (bind_ok _ _ s _ s eq_refl). rewrite Hc.
      unfold alloc. rewrite (bind_ok _ _ s _ s1 eq_refl).
      unfold cache_len. rewrite (bind_ok _ _ s1 _ s1 eq_refl).
      unfold self_capacity. rewrite (bind_ok _ _ s1 _ s1 eq_refl).
      simpl. rewrite decide_True by lia.
      rewrite (bind_ok _ _ _ _ _ Hrun2). apply Hrun.
    + by eapply same_data_trans.
Qed.

(** ** Every reachable state satisfies the invariant *)

Lemma init_inversion cap s :
  __init__ cap = Ok s → (0 < cap)%Z ∧ s = mkLRU init_heap cap ∅ 0 1.
Proof.
  intros H. destruct (decide (cap ≤ 0)%Z) as [Hle|Hgt].
  - unfold __init__ in H. by rewrite decide_True in H.
  - assert (0 < cap)%Z as Hpos by lia. split; [done|].
    rewrite (init_ok _ Hpos) in H. by injection H as <-.
Qed.

Lemma get_inv s ls k v s' :
  inv s ls → get k s = Ok (v, s') → ∃ ls', inv s' ls'.
Proof.
  intros Hinv Hget. destruct (cache s !! k) as [l|] eqn:Hc.
  - destruct (get_hit_spec s ls k l Hinv Hc) as (j & v' & h' & _ & _ & Hrun & Hinv' & _).
    rewrite Hrun in Hget. injection Hget as <- <-. eauto.
  - rewrite (get_miss _ _ Hc) in Hget. injection Hget as <- <-. eauto.
Qed.

Lemma put_inv s ls k v s' :
  inv s ls → put k v s = Ok (tt, s') → ∃ ls', inv s' ls'.
Proof.
  intros Hinv Hput. destruct (cache s !! k) as [l|] eqn:Hc.
  - destruct (put_update_spec s ls k v l Hinv Hc) as (j & h' & _ & Hrun & Hinv' & _).
    rewrite Hrun in Hput. injection Hput as <-. eauto.
  - destruct (decide (capacity s ≤ Z.of_nat (size (cache s)))%Z) as [Hfull|Hroom].
    + destruct (put_full_spec s ls k v Hinv Hc Hfull)
        as (ls0 & e & ke & ve & h' & _ & _ & _ & Hrun & Hinv' & _).
      rewrite Hrun in Hput. injection Hput as <-. eauto.
    + destruct (put_room_spec s ls k v Hinv Hc) as (h' & Hrun & Hinv' & _); [lia|].
      rewrite Hrun in Hput. injection Hput as <-. eauto.
Qed.

Lemma reachable_inv s : reachable s → ∃ ls, inv s ls.
Proof.
  induction 1 as [cap s Hinit|s k v s' _ [ls IH] Hget|s k v s' _ [ls IH] Hput].
  - apply init_inversion in Hinit as [Hpos ->]. exists []. by apply init_inv.
  - by eapply get_inv.
  - by eapply put_inv.
Qed.

(** ** The entries in recency order *)

Lemma items_inv s ls : inv s ls → items s = Some (entry (heap s) <$> ls).
Proof. intros Hinv. unfold items. by rewrite (chain_dll s ls (inv_dll _ _ Hinv)). Qed.

Lemma inv_in_heap s ls l : inv s ls → l ∈ ls → is_Some (heap s !! l).
Proof.
  intros Hinv Hl. eapply chain_of_in_heap; [apply Hinv|].
  right. apply elem_of_app. by left.
Qed.

Lemma inv_index_entry s ls k l :
  inv s ls → cache s !! k = Some l ↔ l ∈ ls ∧ (entry (heap s) l).1 = k.
Proof.
  intros Hinv. rewrite (inv_index _ _ Hinv). split; intros [Hl Hk]; (split; [done|]).
  - unfold fld in Hk. unfold entry. destruct (heap s !! l); simpl in *; congruence.
  - destruct (inv_in_heap _ _ _ Hinv Hl) as [n Hn].
    unfold fld. unfold entry in Hk. rewrite Hn in *. simpl in *. congruence.
Qed.

Lemma inv_nodup_ls s ls : inv s ls → NoDup ls.
Proof.
  intros [[Hnd _ _ _] _ _ _ _ _ _].
  apply NoDup_cons in Hnd as [_ Hnd]. by apply NoDup_app in Hnd as [? _].
Qed.

Lemma inv_nodup_keys s ls : inv s ls → NoDup (entry (heap s) <$> ls).*1.
Proof.
  intros Hinv. rewrite <- list_fmap_compose.
  apply NoDup_fmap_2_strong; [|by eapply inv_nodup_ls].
  intros x y Hx Hy Heq. simpl in Heq.
  assert (cache s !! (entry (heap s) x).1 = Some x) as H1.
  { by apply (inv_index_entry s ls). }
  assert (cache s !! (entry (heap s) x).1 = Some y) as H2.
  { by apply (inv_index_entry s ls). }
  congruence.
Qed.

Lemma inv_cache_None s ls k :
  inv s ls → cache s !! k = None ↔ k ∉ (entry (heap s) <$> ls).*1.
Proof.
  intros Hinv. rewrite <- list_fmap_compose. rewrite list_elem_of_fmap. split.
  - intros Hc (l & -> & Hl).
    assert (cache s !! (entry (heap s) l).1 = Some l) as H1.
    { by apply (inv_index_entry s ls). }
    simpl in Hc. congruence.
  - intros Hnk. destruct (cache s !! k) as [l|] eqn:Hc; [|done].
    apply (inv_index_entry s ls) in Hc as [Hl Hk]; [|done].
    exfalso. apply Hnk. by exists l.
Qed.

(** Removing the entry of a key is removing its position. *)
Lemma filter_key_delete (its : list (Z * Z)) : ∀ j k v,
  NoDup its.*1 → its !! j = Some (k, v) →
  filter (λ kv, kv.1 ≠ k) its = delete j its.
Proof.
  induction its as [|[k0 v0] its IH]; intros j k v Hnd Hj; [done|].
  apply NoDup_cons in Hnd as [Hk0 Hnd]. destruct j as [|j]; simpl in *.
  - injection Hj as -> ->. rewrite filter_cons_False by (simpl; tauto).
    clear IH. induction its as [|[k1 v1] its IH]; [done|].
    simpl in *. apply not_elem_of_cons in Hk0 as [Hne Hk0].
    apply NoDup_cons in Hnd as [_ Hnd].
    rewrite filter_cons_True by (simpl; congruence). f_equal. by apply IH.
  - rewrite filter_cons_True.
    + f_equal. by eapply IH.
    + simpl. intros ->. apply Hk0. apply list_elem_of_fmap.
      exists (k, v). split; [done|]. by eapply list_elem_of_lookup_2.
Qed.

Lemma inv_after_head s l ls : inv s (l :: ls) → after_head s = Some (Some l).
Proof.
  intros Hinv. destruct (inv_dll _ _ Hinv) as [_ Hl _ _].
  by destruct (Hl 0 (head s) l eq_refl eq_refl) as [H1 _].
Qed.

Lemma inv_before_tail s ls e : inv s (ls ++ [e]) → before_tail s = Some (Some e).
Proof.
  intros Hinv. destruct (inv_dll _ _ Hinv) as [_ Hl _ _].
  destruct (Hl (S (length ls)) e (tail s)) as [_ H1]; [| |done].
  - apply chain_of_lookup_S. rewrite lookup_app_r by lia.
    by rewrite Nat.sub_diag.
  - replace (S (length ls)) with (length (ls ++ [e])).
    + apply chain_of_lookup_last.
    + rewrite length_app. simpl. lia.
Qed.

Lemma inv_empty_links s :
  inv s [] →
  after_head s = Some (Some (tail s)) ∧ before_tail s = Some (Some (head s)).
Proof.
  intros Hinv. destruct (inv_dll _ _ Hinv) as [_ Hl _ _].
  apply (Hl 0 (head s) (tail s) eq_refl eq_refl).
Qed.

(** The entries after a node is moved to the front, its value possibly
    changed. *)
Lemma promote_entries s ls j l k v0 v h' :
  inv s ls → ls !! j = Some l → entry (heap s) l = (k, v0) →
  entry h' l = (k, v) →
  (∀ x, x ≠ l → entry h' x = entry (heap s) x) →
  entry h' <$> (l :: delete j ls)
    = (k, v) :: filter (λ kv, kv.1 ≠ k) (entry (heap s) <$> ls).
Proof.
  intros Hinv Hj Hl Hl' Hother. rewrite fmap_cons, Hl'. f_equal.
  rewrite (filter_key_delete _ j k v0).
  - rewrite <- list_fmap_delete. apply list_fmap_ext. intros i x Hx.
    apply Hother. intros ->.
    destruct (NoDup_delete_at ls j l (inv_nodup_ls _ _ Hinv) Hj) as [Hnin _].
    apply Hnin. by eapply list_elem_of_lookup_2.
  - by eapply inv_nodup_keys.
  - rewrite list_lookup_fmap, Hj. simpl. by rewrite Hl.
Qed.

Lemma get_hit_items s ls k l :
  inv s ls → cache s !! k = Some l →
  ∃ v h' ls', entry (heap s) l = (k, v) ∧
    (k, v) ∈ entry (heap s) <$> ls ∧
    get k s = Ok (v, with_heap h' s) ∧
    inv (with_heap h' s) (l :: ls') ∧
    entry h' <$> (l :: ls')
      = (k, v) :: filter (λ kv, kv.1 ≠ k) (entry (heap s) <$> ls) ∧
    same_data (heap s) h'.
Proof.
  intros Hinv Hc.
  destruct (get_hit_spec s ls k l Hinv Hc) as (j & v & h' & Hj & Hl & Hrun & Hinv' & Hs).
  exists v, h', (delete j ls). split; [done|]. split; [|split; [done|split; [done|split; [|done]]]].
  - rewrite <- Hl. apply list_elem_of_fmap. exists l. split; [done|].
    by eapply list_elem_of_lookup_2.
  - eapply promote_entries; try done.
    + rewrite <- Hl. by apply same_data_entry.
    + intros x _. by apply same_data_entry.
Qed.

Lemma put_update_items s ls k v l :
  inv s ls → cache s !! k = Some l →
  ∃ v0 h' ls', entry (heap s) l = (k, v0) ∧
    (k, v0) ∈ entry (heap s) <$> ls ∧
    put k v s = Ok (tt, with_heap h' s) ∧
    inv (with_heap h' s) (l :: ls') ∧
    entry h' <$> (l :: ls')
      = (k, v) :: filter (λ kv, kv.1 ≠ k) (entry (heap s) <$> ls) ∧
    entry h' l = (k, v) ∧
    (∀ x, x ≠ l → entry h' x = entry (heap s) x).
Proof.
  intros Hinv Hc.
  destruct (put_update_spec s ls k v l Hinv Hc)
    as (j & h' & Hj & Hrun & Hinv' & Hk & Hv & Hl').
  assert (l ∈ ls) as Hin by (by eapply list_elem_of_lookup_2).
  assert (∃ v0, entry (heap s) l = (k, v0)) as [v0 Hl].
  { apply (inv_index_entry s ls) in Hc as [_ Hkey]; [|done].
    destruct (entry (heap s) l) as [k0 v0]. simpl in Hkey. subst. eauto. }
  assert (∀ x, x ≠ l → entry h' x = entry (heap s) x) as Hother.
  { intros x Hne. apply entry_eq; [done|]. by apply Hv. }
  exists v0, h', (delete j ls). split; [done|].
  split; [|split; [done|split; [done|split; [|done]]]].
  - rewrite <- Hl. apply list_elem_of_fmap. by exists l.
  - by eapply promote_entries.
Qed.

(** [put] of a new key: the new entry comes first, and at most
    [capacity - 1] of the old entries stay. *)
Lemma put_new_items s ls k v :
  inv s ls → cache s !! k = None →
  ∃ s' n ls', put k v s = Ok (tt, s') ∧ inv s' (n :: ls') ∧
    capacity s' = capacity s ∧ head s' = head s ∧ tail s' = tail s ∧
    entry (heap s') n = (k, v) ∧ cache s' !! k = Some n ∧
    entry (heap s') <$> (n :: ls')
      = (k, v) :: take (Z.to_nat (capacity s) - 1) (entry (heap s) <$> ls).
Proof.
  intros Hinv Hc.
  pose proof (inv_size _ _ Hinv) as Hsz. pose proof (inv_cap _ _ Hinv) as Hcap.
  assert (∀ h' x, same_data (<[fresh (dom (heap s)) := mkNode k v None None]> (heap s)) h' →
            x ∈ ls → entry h' x = entry (heap s) x) as Hold.
  { intros h' x Hs Hx. rewrite (same_data_entry _ _ _ Hs).
    apply entry_alloc_old. by eapply inv_in_heap. }
  destruct (decide (capacity s ≤ Z.of_nat (size (cache s)))%Z) as [Hfull|Hroom].
  - destruct (put_full_spec s ls k v Hinv Hc Hfull)
      as (ls0 & e & ke & ve & h' & -> & He & Hke & Hrun & Hinv' & Hs).
    eexists _, _, ls0. split; [apply Hrun|]. split; [apply Hinv'|].
    cbn [heap cache capacity head tail]. split; [done|]. split; [done|]. split; [done|].
    assert (entry h' (fresh (dom (heap s))) = (k, v)) as Hn.
    { rewrite (same_data_entry _ _ _ Hs). apply entry_alloc_new. }
    split; [done|]. split; [by rewrite lookup_insert_eq|].
    rewrite fmap_cons, Hn. f_equal. rewrite fmap_app.
    rewrite length_app in Hsz, Hcap. simpl in Hsz, Hcap.
    rewrite take_app_length'.
    + apply list_fmap_ext. intros i x Hx. apply Hold; [done|].
      apply elem_of_app. left. by eapply list_elem_of_lookup_2.
    + rewrite length_fmap. lia.
  - destruct (put_room_spec s ls k v Hinv Hc) as (h' & Hrun & Hinv' & Hs); [lia|].
    eexists _, _, ls. split; [apply Hrun|]. split; [apply Hinv'|].
    cbn [heap cache capacity head tail]. split; [done|]. split; [done|]. split; [done|].
    assert (entry h' (fresh (dom (heap s))) = (k, v)) as Hn.
    { rewrite (same_data_entry _ _ _ Hs). apply entry_alloc_new. }
    split; [done|]. split; [by rewrite lookup_insert_eq|].
    rewrite fmap_cons, Hn. f_equal.
    rewrite take_ge by (rewrite length_fmap; lia).
    apply list_fmap_ext. intros i x Hx. apply Hold; [done|].
    by eapply list_elem_of_lookup_2.
Qed.

(** ** Sequences of operations *)

Lemma get_total s ls k :
  inv s ls →
  ∃ v s' ls', get k s = Ok (v, s') ∧ inv s' ls' ∧
    capacity s' = capacity s ∧ cache s' = cache s.
Proof.
  intros Hinv. destruct (cache s !! k) as [l|] eqn:Hc.
  - destruct (get_hit_spec s ls k l Hinv Hc) as (j & v & h' & _ & _ & Hrun & Hinv' & _).
    by eexists _, _, _.
  - exists (-1)%Z, s, ls. by rewrite (get_miss _ _ Hc).
Qed.

Lemma put_total s ls k v :
  inv s ls →
  ∃ s' ls', put k v s = Ok (tt, s') ∧ inv s' ls' ∧
    capacity s' = capacity s ∧ size (cache s) ≤ size (cache s').
Proof.
  intros Hinv. destruct (cache s !! k) as [l|] eqn:Hc.
  - destruct (put_update_spec s ls k v l Hinv Hc) as (j & h' & _ & Hrun & Hinv' & _).
    by eexists _, _.
  - destruct (put_new_items s ls k v Hinv Hc)
      as (s' & n & ls' & Hrun & Hinv' & Hcap & _ & _ & _ & _ & Hent).
    exists s', (n :: ls'). split; [done|]. split; [done|]. split; [done|].
    rewrite (inv_size _ _ Hinv), (inv_size _ _ Hinv').
    apply (f_equal length) in Hent. simpl in Hent.
    rewrite !length_fmap in Hent. rewrite length_take, length_fmap in Hent.
    simpl. rewrite Hent.
    pose proof (inv_cap _ _ Hinv). pose proof (inv_pos _ _ Hinv). lia.
Qed.

Lemma step_reachable o s r s' :
  reachable s → step o s = Ok (r, s') → reachable s'.
Proof.
  intros Hr Hstep. destruct o as [k|k v]; simpl in Hstep; unfold bind in Hstep.
  - destruct (get k s) as [[v s1]|e] eqn:Hget; [|done].
    injection Hstep as <- <-. by eapply reach_get.
  - destruct (put k v s) as [[[] s1]|e] eqn:Hput; [|done].
    injection Hstep as <- <-. by eapply reach_put.
Qed.

Lemma step_total o s ls :
  inv s ls →
  ∃ r s' ls', step o s = Ok (r, s') ∧ inv s' ls' ∧
    capacity s' = capacity s ∧ size (cache s) ≤ size (cache s').
Proof.
  intros Hinv. destruct o as [k|k v]; simpl.
  - destruct (get_total s ls k Hinv) as (v & s' & ls' & Hrun & Hinv' & Hcap & Hc).
    exists (Some v), s', ls'. rewrite (bind_ok _ _ _ _ _ Hrun).
    split; [done|]. split; [done|]. split; [done|]. by rewrite Hc.
  - destruct (put_total s ls k v Hinv) as (s' & ls' & Hrun & Hinv' & Hcap & Hsz).
    exists None, s', ls'. by rewrite (bind_ok _ _ _ _ _ Hrun).
Qed.

Lemma run_total ops : ∀ s ls,
  inv s ls →
  ∃ rs s' ls', run ops s = Ok (rs, s') ∧ inv s' ls' ∧
    capacity s' = capacity s ∧ size (cache s) ≤ size (cache s') ∧
    (reachable s → reachable s').
Proof.
  induction ops as [|o ops IH]; intros s ls Hinv.
  - exists [], s, ls. split; [done|]. split; [done|]. split; [done|]. by split.
  - destruct (step_total o s ls Hinv) as (r & s1 & ls1 & Hstep & Hinv1 & Hcap1 & Hsz1).
    destruct (IH s1 ls1 Hinv1) as (rs & s2 & ls2 & Hrun & Hinv2 & Hcap2 & Hsz2 & Hr2).
    exists (r :: rs), s2, ls2. simpl.
    rewrite (bind_ok _ _ _ _ _ Hstep). rewrite (bind_ok _ _ _ _ _ Hrun).
    split; [done|]. split; [done|]. split; [congruence|]. split; [lia|].
    intros Hr. apply Hr2. by eapply step_reachable.
Qed.

Lemma run_snoc ops o s rs s1 r s2 :
  run ops s = Ok (rs, s1) → step o s1 = Ok (r, s2) →
  run (ops ++ [o]) s = Ok (rs ++ [r], s2).
Proof.
  revert s rs. induction ops as [|o' ops IH]; intros s rs Hrun Hstep; simpl in *.
  - injection Hrun as <- <-. by rewrite (bind_ok _ _ _ _ _ Hstep).
  - unfold bind in Hrun. destruct (step o' s) as [[r' s']|e] eqn:Hs'; [|done].
    destruct (run ops s') as [[rs' s'']|e] eqn:Hr'; [|done].
    injection Hrun as <- <-.
    rewrite (bind_ok _ _ _ _ _ Hs'). by rewrite (bind_ok _ _ _ _ _ (IH _ _ Hr' Hstep)).
Qed.

Lemma session_reachable cap ops rs s :
  session cap ops = Ok (rs, s) → reachable s.
Proof.
  unfold session. destruct (__init__ cap) as [s0|e] eqn:Hinit; [|done].
  assert (reachable s0) as Hr0 by (by eapply reach_init).
  clear Hinit. revert s0 rs Hr0. induction ops as [|o ops IH]; intros s0 rs Hr0 Hrun.
  - simpl in Hrun. by injection Hrun as <- <-.
  - simpl in Hrun. unfold bind in Hrun.
    destruct (step o s0) as [[r' s']|e] eqn:Hs'; [|done].
    destruct (run ops s') as [[rs' s'']|e] eqn:Hr'; [|done].
    injection Hrun as <- <-. eapply IH; [|done]. by eapply step_reachable.
Qed.

Lemma full2_reachable : reachable full2.
Proof.
  apply (session_reachable 2 [Put 1 1; Put 2 2]%Z [None; None]).
  by vm_compute.
Qed.

Lemma single_reachable : reachable single.
Proof.
  apply (session_reachable 1 [Put 5 (-1)]%Z [None]).
  by vm_compute.
Qed.

(** C1: with capacity 2, [put(1,1); put(2,2); get(1); put(3,3); get(2);
    get(3); get(1)] returns 1, then -1, 3 and 1 from the four [get]s, and
    [put(3,3)] evicts key 2 and keeps key 1. *)
Theorem C1_scenario :
  outputs (session 2 [Put 1 1; Put 2 2; Get 1; Put 3 3; Get 2; Get 3; Get 1]%Z)
    = Some [None; None; Some 1; None; Some (-1); Some 3; Some 1]%Z ∧
  ∃ s s', final (session 2 [Put 1 1; Put 2 2; Get 1]%Z) = Some s ∧
    put 3 3 s = Ok (tt, s') ∧
    items s = Some [(1, 1); (2, 2)]%Z ∧
    dom (cache s) = {[1; 2]}%Z ∧
    items s' = Some [(3, 3); (1, 1)]%Z ∧
    dom (cache s') = {[1; 3]}%Z ∧
    get 2 s' = Ok ((-1)%Z, s').
Proof.
  split; [by vm_compute|].
  eexists _, _. split; [by vm_compute|]. split; [by vm_compute|].
  split; [by vm_compute|]. split; [by vm_compute|].
  split; [by vm_compute|]. split; [by vm_compute|]. by vm_compute.
Qed.

Lemma puts_distinct cap (kvs : list (Z * Z)) :
  (0 < cap)%Z → NoDup kvs.*1 →
  ∃ rs s ls, session cap (puts kvs) = Ok (rs, s) ∧ inv s ls ∧
    capacity s = cap ∧
    entry (heap s) <$> ls = take (Z.to_nat cap) (reverse kvs).
Proof.
  intros Hpos. induction kvs as [|[k v] kvs IH] using rev_ind; intros Hnd.
  - exists [], (mkLRU init_heap cap ∅ 0 1), [].
    unfold session. rewrite (init_ok _ Hpos). simpl.
    split; [done|]. split; [by apply init_inv|]. split; [done|].
    by rewrite reverse_nil, take_nil.
  - rewrite fmap_app in Hnd. apply NoDup_app in Hnd as (Hnd & Hk & _).
    destruct (IH Hnd) as (rs & s & ls & Hrun & Hinv & Hcap & Hent).
    assert (cache s !! k = None) as Hc.
    { apply (inv_cache_None s ls _ Hinv). rewrite Hent. intros Hin.
      apply list_elem_of_fmap in Hin as ([k' v'] & -> & Hin).
      apply subseteq_take in Hin. rewrite elem_of_reverse in Hin.
      apply (Hk k'); [|simpl; by left]. apply list_elem_of_fmap. by exists (k', v'). }
    destruct (put_new_items s ls k v Hinv Hc)
      as (s' & n & ls' & Hput & Hinv' & Hcap' & _ & _ & _ & _ & Hent').
    exists (rs ++ [None]), s', (n :: ls').
    split; [|split; [done|split; [congruence|]]].
    + unfold session in *. destruct (__init__ cap) as [s0|e]; [|done].
      unfold puts. rewrite fmap_app. eapply run_snoc; [done|]. simpl.
      by rewrite (bind_ok _ _ _ _ _ Hput).
    + rewrite Hent', Hent, Hcap. rewrite reverse_snoc.
      replace (Z.to_nat cap) with (S (Z.to_nat cap - 1)) at 3 by lia.
      simpl. f_equal. rewrite take_take. f_equal. lia.
Qed.

(** C2: in a reachable state whose size is the capacity, [put] of an
    absent key evicts the entry of the node just before the tail sentinel,
    from the list and from the index, then inserts the new entry first, and
    the size stays the capacity.  In a run of [put]s of distinct keys that
    has filled the cache, the next [put] evicts the key that was inserted
    earliest among the live ones. *)
Theorem C2_evicts_least_recent :
  (∀ s k v,
     reachable s → len s = capacity s → cache s !! k = None →
     ∃ ls e ke ve n s',
       chain s = Some (ls ++ [e]) ∧ before_tail s = Some (Some e) ∧
       entry (heap s) e = (ke, ve) ∧ cache s !! ke = Some e ∧
       items s = Some ((entry (heap s) <$> ls) ++ [(ke, ve)]) ∧
       put k v s = Ok (tt, s') ∧
       chain s' = Some (n :: ls) ∧ (e ∉ n :: ls) ∧
       cache s' = <[k := n]> (delete ke (cache s)) ∧ cache s' !! ke = None ∧
       after_head s' = Some (Some n) ∧ entry (heap s') n = (k, v) ∧
       items s' = Some ((k, v) :: (entry (heap s) <$> ls)) ∧
       len s' = capacity s' ∧ capacity s' = capacity s) ∧
  (∀ cap (kvs : list (Z * Z)) k v,
     (0 < cap)%Z → NoDup (kvs ++ [(k, v)]).*1 →
     (cap ≤ Z.of_nat (length kvs))%Z →
     ∃ rs s s' ke ve rest,
       session cap (puts kvs) = Ok (rs, s) ∧
       drop (length kvs - Z.to_nat cap) kvs = (ke, ve) :: rest ∧
       items s = Some (reverse ((ke, ve) :: rest)) ∧
       is_Some (cache s !! ke) ∧
       put k v s = Ok (tt, s') ∧
       cache s' !! ke = None ∧
       items s' = Some ((k, v) :: reverse rest)).
Proof.
  split.
  - intros s k v Hr Hfull Hc. destruct (reachable_inv s Hr) as [ls Hinv].
    unfold len in Hfull.
    destruct (put_full_spec s ls k v Hinv Hc) as
      (ls0 & e & ke & ve & h' & -> & He & Hke & Hrun & Hinv' & Hs); [lia|].
    pose proof (items_inv _ _ Hinv') as Hit'. pose proof (items_inv _ _ Hinv) as Hit.
    pose proof (chain_dll _ _ (inv_dll _ _ Hinv')) as Hch'.
    pose proof (inv_size _ _ Hinv') as Hsz'. pose proof (inv_size _ _ Hinv) as Hsz.
    pose proof (inv_after_head _ _ _ Hinv') as Hah.
    pose proof (inv_nodup_ls _ _ Hinv) as Hnd.
    cbn [heap cache capacity head tail] in *.
    assert (entry h' (fresh (dom (heap s))) = (k, v)) as Hn.
    { rewrite (same_data_entry _ _ _ Hs). apply entry_alloc_new. }
    assert (entry h' <$> ls0 = entry (heap s) <$> ls0) as Hold.
    { apply list_fmap_ext. intros i x Hx. rewrite (same_data_entry _ _ _ Hs).
      apply entry_alloc_old. eapply inv_in_heap; [done|].
      apply elem_of_app. left. by eapply list_elem_of_lookup_2. }
    assert (e ≠ fresh (dom (heap s))) as Hne.
    { intros Heq. apply (fresh_not_in_chain s _ Hinv). rewrite <- Heq.
      right. rewrite <- app_assoc. apply elem_of_app. right. by left. }
    exists ls0, e, ke, ve, (fresh (dom (heap s))); eexists.
    split; [by apply chain_dll, Hinv|]. split; [by eapply inv_before_tail|].
    split; [done|]. split; [done|].
    split; [by rewrite Hit, fmap_app; simpl; rewrite He|].
    split; [done|]. split; [done|]. split.
    { apply not_elem_of_cons. split; [done|].
      apply NoDup_app in Hnd as (_ & Hdis & _). intros Hin.
      apply (Hdis _ Hin). by left. }
    split; [done|]. split.
    { cbn [cache]. rewrite lookup_insert_ne by congruence. by apply lookup_delete_eq. }
    split; [done|]. split; [done|].
    split; [by rewrite Hit', fmap_cons, Hn, Hold|].
    split; [|done]. unfold len. cbn [cache capacity]. rewrite Hsz'.
    rewrite length_app in Hsz. simpl in *. lia.
  - intros cap kvs k v Hpos Hnd Hlen.
    rewrite fmap_app in Hnd. apply NoDup_app in Hnd as (Hnd & Hk & _).
    destruct (puts_distinct cap kvs Hpos Hnd) as (rs & s & ls & Hrun & Hinv & Hcap & Hent).
    rewrite take_reverse in Hent.
    destruct (drop (length kvs - Z.to_nat cap) kvs) as [|[ke ve] rest] eqn:Hdrop.
    { apply (f_equal length) in Hdrop. rewrite length_drop in Hdrop.
      simpl in Hdrop. lia. }
    assert (length rest = Z.to_nat cap - 1) as Hrest.
    { apply (f_equal length) in Hdrop. rewrite length_drop in Hdrop.
      simpl in Hdrop. lia. }
    assert ((ke, ve) :: rest ⊆ kvs) as Hsub.
    { rewrite <- Hdrop. apply subseteq_drop. }
    assert (NoDup ((ke, ve) :: rest).*1) as Hnd'.
    { rewrite <- Hdrop. rewrite <- (take_drop (length kvs - Z.to_nat cap) kvs) in Hnd.
      rewrite fmap_app in Hnd. by apply NoDup_app in Hnd as (_ & _ & ?). }
    assert (k ∉ kvs.*1) as Hk'.
    { intros Hin. apply (Hk _ Hin). by left. }
    assert (cache s !! k = None) as Hc.
    { apply (inv_cache_None s ls _ Hinv). rewrite Hent. rewrite fmap_reverse.
      intros Hin. rewrite elem_of_reverse in Hin. apply Hk'.
      apply list_elem_of_fmap in Hin as (x & -> & Hx).
      apply list_elem_of_fmap. exists x. split; [done|]. by apply Hsub. }
    destruct (put_new_items s ls k v Hinv Hc)
      as (s' & n & ls' & Hput & Hinv' & Hcap' & _ & _ & _ & _ & Hent').
    assert (entry (heap s') <$> n :: ls' = (k, v) :: reverse rest) as Hent2.
    { rewrite Hent', Hent, Hcap. f_equal. rewrite reverse_cons.
      rewrite take_app_length'; [done|]. by rewrite length_reverse. }
    exists rs, s, s', ke, ve, rest. split; [done|]. split; [done|].
    split; [by rewrite (items_inv _ _ Hinv), Hent|]. split.
    { destruct (cache s !! ke) eqn:Hcke; [by eexists|].
      apply (inv_cache_None s ls _ Hinv) in Hcke. exfalso. apply Hcke.
      rewrite Hent, fmap_reverse. rewrite elem_of_reverse. by left. }
    split; [done|]. split; [|by rewrite (items_inv _ _ Hinv'), Hent2].
    apply (inv_cache_None s' _ _ Hinv'). rewrite Hent2.
    rewrite fmap_cons. apply not_elem_of_cons. split.
    + simpl. intros <-. apply Hk'. apply list_elem_of_fmap.
      exists (ke, ve). split; [done|]. apply Hsub. by left.
    + rewrite fmap_reverse. intros Hin. rewrite elem_of_reverse in Hin.
      simpl in Hnd'. by apply NoDup_cons in Hnd' as [? _].
Qed.

(** C3: in every reachable state the size is between 0 and the
    capacity; every sequence of operations from it succeeds, never lowers
    the size and never changes the capacity, so a size that has reached
    the capacity stays equal to it. *)
Theorem C3_capacity_bound s ops :
  reachable s →
  (0 ≤ len s ≤ capacity s)%Z ∧
  ∃ rs s', run ops s = Ok (rs, s') ∧ reachable s' ∧
    capacity s' = capacity s ∧
    (len s ≤ len s' ≤ capacity s')%Z ∧
    (len s = capacity s → len s' = capacity s').
Proof.
  intros Hr. destruct (reachable_inv s Hr) as [ls Hinv].
  pose proof (inv_size _ _ Hinv) as Hsz. pose proof (inv_cap _ _ Hinv) as Hcap.
  unfold len. split; [lia|].
  destruct (run_total ops s ls Hinv) as (rs & s' & ls' & Hrun & Hinv' & Hc & Hmono & Hr').
  pose proof (inv_size _ _ Hinv') as Hsz'. pose proof (inv_cap _ _ Hinv') as Hcap'.
  exists rs, s'. split; [done|]. split; [by apply Hr'|]. split; [done|].
  split; lia.
Qed.

(** C4: in a reachable state, [put] of a present key writes the value
    into the node the index already holds for the key, moves that node
    first, and leaves the index, the size and every other entry as they
    were.  With capacity 2, after [put(1,1); put(2,2); put(1,10)] the size
    is 2, [get(1)] returns 10 and [put(3,3)] evicts key 2. *)
Theorem C4_update_in_place :
  (∀ s k v l,
     reachable s → cache s !! k = Some l →
     ∃ its v0 s',
       items s = Some its ∧ (k, v0) ∈ its ∧ entry (heap s) l = (k, v0) ∧
       put k v s = Ok (tt, s') ∧
       cache s' = cache s ∧ len s' = len s ∧ capacity s' = capacity s ∧
       entry (heap s') l = (k, v) ∧
       (∀ x, x ≠ l → entry (heap s') x = entry (heap s) x) ∧
       after_head s' = Some (Some l) ∧
       items s' = Some ((k, v) :: filter (λ kv, kv.1 ≠ k) its)) ∧
  (∃ rs s s1 s2,
     session 2 [Put 1 1; Put 2 2; Put 1 10]%Z = Ok (rs, s) ∧
     len s = 2%Z ∧ items s = Some [(1, 10); (2, 2)]%Z ∧
     get 1 s = Ok (10%Z, s1) ∧
     put 3 3 s = Ok (tt, s2) ∧
     dom (cache s) = {[1; 2]}%Z ∧ dom (cache s2) = {[1; 3]}%Z ∧
     items s2 = Some [(3, 3); (1, 10)]%Z).
Proof.
  split.
  - intros s k v l Hr Hc. destruct (reachable_inv s Hr) as [ls Hinv].
    destruct (put_update_items s ls k v l Hinv Hc)
      as (v0 & h' & ls' & Hl & Hin & Hrun & Hinv' & Hent & Hl' & Hother).
    exists (entry (heap s) <$> ls), v0, (with_heap h' s).
    split; [by apply items_inv|]. split; [done|]. split; [done|].
    split; [done|]. split; [done|]. split; [done|]. split; [done|].
    split; [done|]. split; [done|].
    split; [by eapply inv_after_head|].
    rewrite (items_inv _ _ Hinv').
    change (heap (with_heap h' s)) with h'. by rewrite Hent.
  - eexists _, _, _, _. split; [by vm_compute|]. split; [by vm_compute|].
    split; [by vm_compute|]. split; [by vm_compute|]. split; [by vm_compute|].
    split; [by vm_compute|]. split; [by vm_compute|]. by vm_compute.
Qed.

(** C5: in a reachable state, [get] of a present key returns the value
    stored for it and moves its node first; the index, the size, the
    capacity and the key and value of every node stay as they were. *)
Theorem C5_get_promotes s k l :
  reachable s → cache s !! k = Some l →
  ∃ its v s',
    items s = Some its ∧ (k, v) ∈ its ∧ entry (heap s) l = (k, v) ∧
    get k s = Ok (v, s') ∧
    cache s' = cache s ∧ len s' = len s ∧ capacity s' = capacity s ∧
    head s' = head s ∧ tail s' = tail s ∧
    (∀ x, entry (heap s') x = entry (heap s) x) ∧
    after_head s' = Some (Some l) ∧
    items s' = Some ((k, v) :: filter (λ kv, kv.1 ≠ k) its).
Proof.
  intros Hr Hc. destruct (reachable_inv s Hr) as [ls Hinv].
  destruct (get_hit_items s ls k l Hinv Hc)
    as (v & h' & ls' & Hl & Hin & Hrun & Hinv' & Hent & Hs).
  exists (entry (heap s) <$> ls), v, (with_heap h' s).
  split; [by apply items_inv|]. split; [done|]. split; [done|].
  split; [done|]. split; [done|]. split; [done|]. split; [done|].
  split; [done|]. split; [done|].
  split; [intros x; by apply same_data_entry|].
  split; [by eapply inv_after_head|].
  rewrite (items_inv _ _ Hinv').
  change (heap (with_heap h' s)) with h'. by rewrite Hent.
Qed.

(** C6: [get] of a key that is not in the index returns -1, raises
    nothing and leaves the state as it was. *)
Theorem C6_get_absent s k :
  cache s !! k = None → get k s = Ok ((-1)%Z, s).
Proof. apply get_miss. Qed.

(** C7: [__init__] raises [ValueError] exactly when the capacity is not
    positive, for 0 and -1 in particular; otherwise it returns an empty
    cache whose two sentinels are linked to each other.  With capacity 1
    the cache holds a single entry: after [put] of a key, that entry is the
    only one, whatever was stored before. *)
Theorem C7_construction :
  (∀ cap, __init__ cap = Raise ValueError ↔ (cap ≤ 0)%Z) ∧
  __init__ 0 = Raise ValueError ∧ __init__ (-1) = Raise ValueError ∧
  (∀ cap, (0 < cap)%Z →
     ∃ s, __init__ cap = Ok s ∧ capacity s = cap ∧ len s = 0%Z ∧
       cache s = ∅ ∧ items s = Some [] ∧
       after_head s = Some (Some (tail s)) ∧
       before_tail s = Some (Some (head s))) ∧
  (∀ s k v,
     reachable s → capacity s = 1%Z →
     ∃ s', put k v s = Ok (tt, s') ∧ items s' = Some [(k, v)] ∧
       capacity s' = 1%Z ∧
       ∀ k', k' ≠ k → cache s' !! k' = None ∧ get k' s' = Ok ((-1)%Z, s')).
Proof.
  split; [|split; [done|split; [done|split]]].
  - intros cap. split.
    + intros H. destruct (decide (cap ≤ 0)%Z) as [|Hgt]; [done|].
      rewrite init_ok in H by lia. done.
    + intros H. unfold __init__. by rewrite decide_True.
  - intros cap Hpos. exists (mkLRU init_heap cap ∅ 0 1).
    split; [by apply init_ok|]. split; [done|]. split; [done|]. split; [done|].
    pose proof (init_inv cap Hpos) as Hinv.
    split; [by rewrite (items_inv _ _ Hinv)|]. by apply inv_empty_links.
  - intros s k v Hr Hcap. destruct (reachable_inv s Hr) as [ls Hinv].
    assert (∃ s' ls', put k v s = Ok (tt, s') ∧ inv s' ls' ∧ capacity s' = 1%Z ∧
              entry (heap s') <$> ls' = [(k, v)]) as (s' & ls' & Hput & Hinv' & Hcap' & Hent).
    { destruct (cache s !! k) as [l|] eqn:Hc.
      - destruct (put_update_items s ls k v l Hinv Hc)
          as (v0 & h' & ls' & Hl & Hin & Hrun & Hinv' & Hent & _).
        exists (with_heap h' s), (l :: ls'). split; [done|]. split; [done|].
        split; [done|]. change (heap (with_heap h' s)) with h'.
        pose proof (inv_cap _ _ Hinv') as Hle.
        change (capacity (with_heap h' s)) with (capacity s) in Hle.
        rewrite Hcap in Hle. rewrite Hent.
        apply (f_equal length) in Hent. rewrite length_fmap in Hent.
        simpl in Hent, Hle.
        destruct (filter _ _); [done|]. simpl in Hent. lia.
      - destruct (put_new_items s ls k v Hinv Hc)
          as (s' & n & ls' & Hput & Hinv' & Hcap' & _ & _ & _ & _ & Hent).
        exists s', (n :: ls'). split; [done|]. split; [done|].
        split; [congruence|]. rewrite Hent, Hcap. done. }
    exists s'. split; [done|]. split; [by rewrite (items_inv _ _ Hinv'), Hent|].
    split; [done|]. intros k' Hne.
    assert (cache s' !! k' = None) as Hc'.
    { apply (inv_cache_None s' ls' _ Hinv'). rewrite Hent. simpl.
      by intros ?%list_elem_of_singleton. }
    split; [done|]. by apply get_miss.
Qed.

(** C8: in every reachable state, that is after construction and after
    every [get] and [put], the traversal from the head sentinel reaches the
    tail sentinel through nodes that are pairwise distinct and are not
    sentinels, consecutive nodes are linked both ways, the index has
    exactly one key per node of the traversal and maps it to that node, so
    that the size of the index is the number of nodes between the
    sentinels, and the sentinels keep the default key and value and are not
    in the index. *)
Theorem C8_index_and_list_agree s :
  reachable s →
  ∃ ls, chain s = Some ls ∧
    size (cache s) = length ls ∧
    NoDup (head s :: ls ++ [tail s]) ∧
    linked (heap s) (head s :: ls ++ [tail s]) ∧
    (∀ k l, cache s !! k = Some l ↔ l ∈ ls ∧ fld key (heap s) l = Some k) ∧
    (∀ l, l ∈ ls → ∃ k, cache s !! k = Some l ∧
            ∀ k', cache s !! k' = Some l → k' = k) ∧
    (∀ k l l', cache s !! k = Some l → cache s !! k = Some l' → l = l') ∧
    entry (heap s) (head s) = (0, 0)%Z ∧ entry (heap s) (tail s) = (0, 0)%Z ∧
    fld prev (heap s) (head s) = Some None ∧
    fld next (heap s) (tail s) = Some None ∧
    (∀ k, cache s !! k ≠ Some (head s) ∧ cache s !! k ≠ Some (tail s)).
Proof.
  intros Hr. destruct (reachable_inv s Hr) as [ls Hinv].
  pose proof (inv_not_sentinel s ls) as Hns.
  pose proof (inv_in_heap s ls) as Hheap.
  destruct Hinv as [Hd Hidx Hsz Hpos Hcap Hh Ht].
  assert (inv s ls) as Hinv by (by split).
  exists ls. split; [by apply chain_dll|]. split; [done|].
  split; [apply Hd|]. split; [apply Hd|]. split; [done|]. split.
  { intros l Hl. destruct (Hheap l Hinv Hl) as [n Hn].
    exists (key n). assert (fld key (heap s) l = Some (key n)) as Hk.
    { unfold fld. by rewrite Hn. }
    split; [by apply Hidx|].
    intros k' Hk'. apply Hidx in Hk' as [_ Hk']. congruence. }
  split; [intros k l l' H1 H2; congruence|].
  split; [done|]. split; [done|].
  split; [apply Hd|]. split; [apply Hd|].
  intros k. split; intros Hc; apply Hidx in Hc as [Hin _];
    destruct (Hns _ Hinv Hin); done.
Qed.

(** C9: there is a reachable state with a present key and an absent key
    for which [get] returns the same -1: after [put(5,-1)], [get(5)] finds
    the key and returns the stored -1, and [get(6)] misses and returns
    -1. *)
Theorem C9_not_found_ambiguous :
  ∃ s k k' s1 s2,
    reachable s ∧ is_Some (cache s !! k) ∧ cache s !! k' = None ∧
    get k s = Ok ((-1)%Z, s1) ∧ get k' s = Ok ((-1)%Z, s2).
Proof.
  exists single, 5%Z, 6%Z. eexists _, _.
  split; [apply single_reachable|]. split; [by vm_compute; eexists|].
  split; [by vm_compute|]. split; by vm_compute.
Qed.

(** C10: in a reachable state, [put(k, v)] succeeds and leaves [k] in
    the index at the first node of the list, and the [get(k)] that follows
    returns [v]. *)
Theorem C10_read_after_write s k v :
  reachable s →
  ∃ s' l s'',
    put k v s = Ok (tt, s') ∧
    cache s' !! k = Some l ∧ after_head s' = Some (Some l) ∧
    get k s' = Ok (v, s'').
Proof.
  intros Hr. destruct (reachable_inv s Hr) as [ls Hinv].
  assert (∃ s' l ls', put k v s = Ok (tt, s') ∧ inv s' (l :: ls') ∧
            cache s' !! k = Some l ∧ entry (heap s') l = (k, v))
    as (s' & l & ls' & Hput & Hinv' & Hc' & Hl).
  { destruct (cache s !! k) as [l|] eqn:Hc.
    - destruct (put_update_items s ls k v l Hinv Hc)
        as (v0 & h' & ls' & _ & _ & Hrun & Hinv' & _ & Hl' & _).
      by exists (with_heap h' s), l, ls'.
    - destruct (put_new_items s ls k v Hinv Hc)
        as (s' & n & ls' & Hput & Hinv' & _ & _ & _ & Hn & Hc' & _).
      by exists s', n, ls'. }
  destruct (get_hit_items s' _ k l Hinv' Hc')
    as (v' & h'' & ls'' & Hl' & _ & Hget & _).
  exists s', l, (with_heap h'' s'). split; [done|]. split; [done|].
  split; [by eapply inv_after_head|].
  rewrite Hl in Hl'. by injection Hl' as <-.
Qed.

(** ** The theorems at concrete states *)

Lemma C2_witness :
  (reachable full2 ∧ len full2 = capacity full2 ∧ cache full2 !! 3%Z = None ∧
   ∃ ke s', put 3 3 full2 = Ok (tt, s') ∧ cache s' !! ke = None ∧
     items s' ≠ None ∧ len s' = capacity s') ∧
  ((0 < 2)%Z ∧ NoDup ([(1, 1); (2, 2)] ++ [(3, 3)])%Z.*1 ∧
   (2 ≤ Z.of_nat (length [(1, 1); (2, 2)]%Z))%Z ∧
   ∃ rs s s' ke rest,
     session 2 (puts [(1, 1); (2, 2)]%Z) = Ok (rs, s) ∧
     put 3 3 s = Ok (tt, s') ∧ cache s' !! ke = None ∧
     items s' = Some ((3, 3)%Z :: reverse rest)).
Proof.
  destruct C2_evicts_least_recent as [HA HB].
  assert (NoDup ([(1, 1); (2, 2)] ++ [(3, 3)])%Z.*1) as Hnd.
  { apply (bool_decide_unpack _). by vm_compute. }
  split.
  - split; [apply full2_reachable|]. split; [by vm_compute|]. split; [by vm_compute|].
    destruct (HA full2 3%Z 3%Z full2_reachable) as
      (ls & e & ke & ve & n & s' & _ & _ & _ & _ & _ & Hput & _ & _ & _ & Hke & _ & _ & Hit & Hlen & _);
      [by vm_compute|by vm_compute|].
    exists ke, s'. split; [done|]. split; [done|]. split; [|done].
    by rewrite Hit.
  - split; [lia|]. split; [done|]. split; [simpl; lia|].
    destruct (HB 2%Z [(1, 1); (2, 2)]%Z 3%Z 3%Z) as
      (rs & s & s' & ke & ve & rest & Hrun & _ & _ & _ & Hput & Hke & Hit);
      [lia|done|simpl; lia|].
    by exists rs, s, s', ke, rest.
Defined.

Lemma C3_witness :
  reachable full2 ∧ (0 ≤ len full2 ≤ capacity full2)%Z ∧
  ∃ rs s', run [Get 1; Put 3 3; Put 1 5]%Z full2 = Ok (rs, s') ∧
    len s' = capacity s'.
Proof.
  split; [apply full2_reachable|].
  destruct (C3_capacity_bound full2 [Get 1; Put 3 3; Put 1 5]%Z full2_reachable)
    as [Hb (rs & s' & Hrun & _ & _ & _ & Hfull)].
  split; [done|]. exists rs, s'. split; [done|]. apply Hfull. by vm_compute.
Defined.

Lemma C4_witness :
  reachable full2 ∧ cache full2 !! 1%Z = Some 2 ∧
  ∃ its s', items full2 = Some its ∧ put 1 10 full2 = Ok (tt, s') ∧
    cache s' = cache full2 ∧
    items s' = Some ((1, 10)%Z :: filter (λ kv, kv.1 ≠ 1%Z) its).
Proof.
  split; [apply full2_reachable|]. split; [by vm_compute|].
  destruct C4_update_in_place as [HA _].
  destruct (HA full2 1%Z 10%Z 2 full2_reachable) as
    (its & v0 & s' & Hits & _ & _ & Hput & Hc & _ & _ & _ & _ & _ & Hit');
    [by vm_compute|].
  by exists its, s'.
Defined.

Lemma C5_witness :
  reachable full2 ∧ cache full2 !! 1%Z = Some 2 ∧
  ∃ its v s', items full2 = Some its ∧ get 1 full2 = Ok (v, s') ∧
    cache s' = cache full2 ∧
    items s' = Some ((1%Z, v) :: filter (λ kv, kv.1 ≠ 1%Z) its).
Proof.
  split; [apply full2_reachable|]. split; [by vm_compute|].
  destruct (C5_get_promotes full2 1%Z 2 full2_reachable) as
    (its & v & s' & Hits & _ & _ & Hget & Hc & _ & _ & _ & _ & _ & _ & Hit');
    [by vm_compute|].
  by exists its, v, s'.
Defined.

Lemma C6_witness :
  cache full2 !! 9%Z = None ∧ get 9 full2 = Ok ((-1)%Z, full2).
Proof.
  split; [by vm_compute|]. apply C6_get_absent. by vm_compute.
Defined.

Lemma C7_witness :
  ((0 ≤ 0)%Z ∧ __init__ 0 = Raise ValueError) ∧
  ((0 < 3)%Z ∧ ∃ s, __init__ 3 = Ok s ∧ capacity s = 3%Z ∧ items s = Some []) ∧
  (reachable single ∧ capacity single = 1%Z ∧
   ∃ s', put 7 7 single = Ok (tt, s') ∧ items s' = Some [(7, 7)%Z] ∧
     cache s' !! 5%Z = None).
Proof.
  destruct C7_construction as (Hiff & _ & _ & Hnew & Hone).
  split; [|split].
  - split; [lia|]. apply Hiff. lia.
  - split; [lia|]. destruct (Hnew 3%Z) as (s & Hs & Hcap & _ & _ & Hit & _); [lia|].
    by exists s.
  - split; [apply single_reachable|]. split; [by vm_compute|].
    destruct (Hone single 7%Z 7%Z single_reachable) as (s' & Hput & Hit & _ & Hgone);
      [by vm_compute|].
    exists s'. split; [done|]. split; [done|].
    by destruct (Hgone 5%Z) as [? _].
Defined.

Lemma C8_witness :
  reachable full2 ∧
  ∃ ls, chain full2 = Some ls ∧ size (cache full2) = length ls ∧
    NoDup (head full2 :: ls ++ [tail full2]) ∧
    linked (heap full2) (head full2 :: ls ++ [tail full2]).
Proof.
  split; [apply full2_reachable|].
  destruct (C8_index_and_list_agree full2 full2_reachable)
    as (ls & Hch & Hsz & Hnd & Hl & _).
  by exists ls.
Defined.

Lemma C10_witness :
  reachable full2 ∧
  ∃ s' s'', put 3 42 full2 = Ok (tt, s') ∧ get 3 s' = Ok (42%Z, s'').
Proof.
  split; [apply full2_reachable|].
  destruct (C10_read_after_write full2 3%Z 42%Z full2_reachable)
    as (s' & l & s'' & Hput & _ & _ & Hget).
  by exists s', s''.
Defined.

(** ** The cache and the list of its entries *)

Lemma assoc_None k (its : list (Z * Z)) : assoc k its = None ↔ k ∉ its.*1.
Proof.
  induction its as [|[k' v] its IH]; simpl.
  - split; [intros _; apply not_elem_of_nil|done].
  - rewrite not_elem_of_cons. destruct (decide (k' = k)) as [->|Hne].
    + split; [done|]. by intros [? _].
    + rewrite IH. split; [by split|]. by intros [_ ?].
Qed.

Lemma assoc_Some_elem k v (its : list (Z * Z)) :
  assoc k its = Some v → (k, v) ∈ its.
Proof.
  induction its as [|[k' v'] its IH]; simpl; [done|].
  destruct (decide (k' = k)) as [->|Hne].
  - intros [= ->]. by left.
  - intros H. right. by apply IH.
Qed.

Lemma assoc_elem k v (its : list (Z * Z)) :
  NoDup its.*1 → (k, v) ∈ its → assoc k its = Some v.
Proof.
  induction its as [|[k' v'] its IH]; simpl; intros Hnd Hin.
  - by apply elem_of_nil in Hin.
  - apply NoDup_cons in Hnd as [Hk' Hnd].
    apply elem_of_cons in Hin as [[= <- <-]|Hin].
    + by rewrite decide_True.
    + rewrite decide_False; [by apply IH|].
      intros ->. apply Hk'. apply list_elem_of_fmap. by exists (k, v).
Qed.

Lemma inv_assoc_Some s ls k l :
  inv s ls → cache s !! k = Some l →
  assoc k (entry (heap s) <$> ls) = Some (entry (heap s) l).2 ∧
  (entry (heap s) l).1 = k.
Proof.
  intros Hinv Hc. apply (inv_index_entry s ls k l Hinv) in Hc as [Hl Hk].
  split; [|done]. apply assoc_elem; [by eapply inv_nodup_keys|].
  apply list_elem_of_fmap. exists l. split; [|done].
  destruct (entry (heap s) l) as [k0 v0]. simpl in *. by subst.
Qed.

Lemma inv_assoc_None s ls k :
  inv s ls → cache s !! k = None → assoc k (entry (heap s) <$> ls) = None.
Proof. intros Hinv Hc. apply assoc_None. by apply (inv_cache_None s ls k Hinv). Qed.

Lemma step_refines o s ls :
  inv s ls →
  ∃ s' ls',
    step o s = Ok ((model_step (capacity s) o (entry (heap s) <$> ls)).1, s') ∧
    inv s' ls' ∧ capacity s' = capacity s ∧
    entry (heap s') <$> ls' = (model_step (capacity s) o (entry (heap s) <$> ls)).2.
Proof.
  intros Hinv. destruct o as [k|k v]; simpl.
  - destruct (cache s !! k) as [l|] eqn:Hc.
    + destruct (get_hit_items s ls k l Hinv Hc)
        as (v & h' & ls' & Hl & _ & Hrun & Hinv' & Hent & _).
      destruct (inv_assoc_Some s ls k l Hinv Hc) as [Ha _].
      rewrite Ha, Hl. simpl.
      exists (with_heap h' s), (l :: ls'). rewrite (bind_ok _ _ _ _ _ Hrun).
      by split.
    + rewrite (inv_assoc_None s ls k Hinv Hc). simpl.
      exists s, ls. rewrite (bind_ok _ _ _ _ _ (get_miss s k Hc)). by split.
  - destruct (cache s !! k) as [l|] eqn:Hc.
    + destruct (put_update_items s ls k v l Hinv Hc)
        as (v0 & h' & ls' & _ & _ & Hrun & Hinv' & Hent & _).
      destruct (inv_assoc_Some s ls k l Hinv Hc) as [Ha _].
      rewrite Ha. simpl.
      exists (with_heap h' s), (l :: ls'). rewrite (bind_ok _ _ _ _ _ Hrun).
      by split.
    + destruct (put_new_items s ls k v Hinv Hc)
        as (s' & n & ls' & Hrun & Hinv' & Hcap & _ & _ & _ & _ & Hent).
      rewrite (inv_assoc_None s ls k Hinv Hc). simpl.
      exists s', (n :: ls'). rewrite (bind_ok _ _ _ _ _ Hrun). by split.
Qed.

Lemma model_run_cons cap o ops its :
  model_run cap (o :: ops) its =
    ((model_step cap o its).1 :: (model_run cap ops (model_step cap o its).2).1,
     (model_run cap ops (model_step cap o its).2).2).
Proof.
  simpl. destruct (model_step cap o its) as [r its1]. simpl.
  by destruct (model_run cap ops its1).
Qed.

Lemma run_refines ops : ∀ s ls,
  inv s ls →
  ∃ s' ls',
    run ops s = Ok ((model_run (capacity s) ops (entry (heap s) <$> ls)).1, s') ∧
    inv s' ls' ∧ capacity s' = capacity s ∧
    entry (heap s') <$> ls' = (model_run (capacity s) ops (entry (heap s) <$> ls)).2.
Proof.
  induction ops as [|o ops IH]; intros s ls Hinv.
  - exists s, ls. by split.
  - destruct (step_refines o s ls Hinv) as (s1 & ls1 & Hstep & Hinv1 & Hcap1 & Hent1).
    destruct (IH s1 ls1 Hinv1) as (s2 & ls2 & Hrun & Hinv2 & Hcap2 & Hent2).
    rewrite Hcap1, Hent1 in Hrun, Hent2.
    rewrite model_run_cons. exists s2, ls2. cbn [run fst snd].
    rewrite (bind_ok _ _ _ _ _ Hstep). rewrite (bind_ok _ _ _ _ _ Hrun).
    split; [done|]. split; [done|]. split; [congruence|done].
Qed.

(** ** Moving the first node to the front *)

Lemma move_first_heap h hd l q :
  fld next h hd = Some (Some l) → fld prev h l = Some (Some hd) →
  fld next h l = Some (Some q) → fld prev h q = Some (Some l) →
  hd ≠ l → l ≠ q → hd ≠ q →
  link hd q l (unlink hd q h) = h.
Proof.
  unfold fld. intros Hhd Hlp Hln Hq H1 H2 H3. apply map_eq. intros i.
  unfold link, unlink.
  destruct (decide (i = hd)) as [->|Hi1].
  { rewrite lookup_alter_eq. rewrite !lookup_alter_ne by done.
    rewrite lookup_alter_eq. destruct (h !! hd) as [n|]; [|done].
    destruct n as [k v p x]. unfold with_next, with_prev. simpl in *. congruence. }
  rewrite (lookup_alter_ne _ _ hd) by done.
  destruct (decide (i = q)) as [->|Hi2].
  { rewrite lookup_alter_eq. rewrite !lookup_alter_ne by done.
    rewrite lookup_alter_eq. rewrite lookup_alter_ne by done.
    destruct (h !! q) as [n|]; [|done].
    destruct n as [k v p x]. unfold with_next, with_prev. simpl in *. congruence. }
  rewrite (lookup_alter_ne _ _ q) by done.
  destruct (decide (i = l)) as [->|Hi3].
  { rewrite !lookup_alter_eq. rewrite !lookup_alter_ne by done.
    destruct (h !! l) as [n|]; [|done].
    destruct n as [k v p x]. unfold with_next, with_prev. simpl in *. congruence. }
  by rewrite !lookup_alter_ne by done.
Qed.

Lemma with_heap_id s : with_heap (heap s) s = s.
Proof. by destruct s. Qed.

(** [_move_to_head] of the node that is first already. *)
Lemma move_to_head_first s l ls :
  inv s (l :: ls) → _move_to_head (Some l) s = Ok (tt, s).
Proof.
  intros Hinv. destruct (inv_dll _ _ Hinv) as [Hnd Hl _ _].
  assert (∃ q, chain_of (head s) (tail s) (l :: ls) !! 2 = Some q) as [q Hq].
  { destruct ls; simpl; eauto. }
  destruct (Hl 0 (head s) l eq_refl eq_refl) as [Hhl Hlh].
  destruct (Hl 1 l q eq_refl Hq) as [Hlq Hql].
  assert (head s ≠ l) as H1.
  { intros Heq. pose proof (NoDup_lookup _ 0 1 (head s) Hnd eq_refl) as H.
    simpl in H. rewrite <- Heq in H. specialize (H eq_refl). lia. }
  assert (l ≠ q) as H2.
  { intros Heq. rewrite <- Heq in Hq.
    pose proof (NoDup_lookup _ 1 2 l Hnd eq_refl Hq). lia. }
  assert (head s ≠ q) as H3.
  { intros Heq. rewrite <- Heq in Hq.
    pose proof (NoDup_lookup _ 0 2 (head s) Hnd eq_refl Hq). lia. }
  unfold _move_to_head.
  rewrite (bind_ok _ _ _ _ _ (remove_node_run s _ 0 (head s) l q Hl eq_refl eq_refl Hq)).
  assert (with_heap (link (head s) q l (unlink (head s) q (heap s))) s = s) as Hid.
  { rewrite move_first_heap by done. apply with_heap_id. }
  rewrite (add_node_run _ q l).
  - exact (f_equal (λ x, Ok (tt, x)) Hid).
  - simpl. rewrite fld_next_unlink by (by eapply fld_is_Some). by rewrite decide_True.
  - simpl. apply is_Some_unlink. by eapply fld_is_Some.
  - simpl. apply is_Some_unlink. by eapply fld_is_Some.
  - simpl. congruence.
Qed.

Lemma get_first s l ls k v :
  inv s (l :: ls) → entry (heap s) l = (k, v) → get k s = Ok (v, s).
Proof.
  intros Hinv Hl.
  assert (cache s !! k = Some l) as Hc.
  { apply (inv_index_entry s (l :: ls) k l Hinv). split; [by left|by rewrite Hl]. }
  unfold get, cache_get. rewrite (bind_ok _ _ s _ s eq_refl). rewrite Hc.
  rewrite (bind_ok _ _ _ _ _ (move_to_head_first s l ls Hinv)).
  apply load_fld. apply entry_fld in Hl; [by destruct Hl|].
  eapply inv_in_heap; [done|by left].
Qed.

Lemma put_first s l ls k v :
  inv s (l :: ls) → entry (heap s) l = (k, v) → put k v s = Ok (tt, s).
Proof.
  intros Hinv Hl.
  assert (cache s !! k = Some l) as Hc.
  { apply (inv_index_entry s (l :: ls) k l Hinv). split; [by left|by rewrite Hl]. }
  assert (is_Some (heap s !! l)) as Hsome by (eapply inv_in_heap; [done|by left]).
  unfold put, cache_get. rewrite (bind_ok _ _ s _ s eq_refl). rewrite Hc.
  rewrite (bind_ok _ _ _ _ _ (store_alter s _ l Hsome)).
  rewrite alter_id.
  - rewrite with_heap_id. by apply (move_to_head_first s l ls).
  - intros n Hn. unfold entry in Hl. rewrite Hn in Hl. injection Hl as Hk Hv.
    destruct n as [k0 v0 p x]. unfold with_value. simpl in *. congruence.
Qed.

(** ** Further properties of the operations *)

Lemma delete_filter_ne (ls : list nat) : ∀ j l,
  NoDup ls → ls !! j = Some l → delete j ls = filter (λ x, x ≠ l) ls.
Proof.
  induction ls as [|a ls IH]; intros j l Hnd Hj; [done|].
  apply NoDup_cons in Hnd as [Ha Hnd]. destruct j as [|j]; simpl in *.
  - injection Hj as ->. rewrite filter_cons_False by tauto.
    clear IH Hnd. induction ls as [|b ls IH]; [done|].
    apply not_elem_of_cons in Ha as [Hne Ha].
    rewrite filter_cons_True by congruence. f_equal. by apply IH.
  - rewrite filter_cons_True.
    + f_equal. by apply IH.
    + intros ->. apply Ha. by eapply list_elem_of_lookup_2.
Qed.

(** X1: in a reachable state with room left, [put] of an absent key
    evicts nothing: the index gains the key at a new node, the traversal
    gains that node in front of the nodes it had, and the size grows by
    one. *)
Theorem X1_put_with_room s k v :
  reachable s → cache s !! k = None → (len s < capacity s)%Z →
  ∃ ls its n s',
    chain s = Some ls ∧ items s = Some its ∧
    put k v s = Ok (tt, s') ∧ (n ∉ ls) ∧
    cache s' = <[k := n]> (cache s) ∧
    chain s' = Some (n :: ls) ∧ items s' = Some ((k, v) :: its) ∧
    len s' = (len s + 1)%Z ∧ capacity s' = capacity s.
Proof.
  intros Hr Hc Hroom. destruct (reachable_inv s Hr) as [ls Hinv].
  destruct (put_room_spec s ls k v Hinv Hc Hroom) as (h' & Hrun & Hinv' & Hs).
  exists ls, (entry (heap s) <$> ls), (fresh (dom (heap s))); eexists.
  split; [by apply chain_dll, Hinv|]. split; [by apply items_inv|].
  split; [done|]. split.
  { intros Hin. apply (fresh_not_in_chain s ls Hinv). right.
    apply elem_of_app. by left. }
  split; [done|]. split; [by apply (chain_dll _ _ (inv_dll _ _ Hinv'))|].
  split.
  - rewrite (items_inv _ _ Hinv'). cbn [heap]. rewrite fmap_cons.
    rewrite (same_data_entry _ _ _ Hs), entry_alloc_new. do 2 f_equal.
    apply list_fmap_ext. intros i x Hx. rewrite (same_data_entry _ _ _ Hs).
    apply entry_alloc_old. eapply inv_in_heap; [done|].
    by eapply list_elem_of_lookup_2.
  - split; [|done]. unfold len. cbn [cache].
    rewrite map_size_insert_None by done. lia.
Qed.


(** X3: on a reachable cache with an entry, [_pop_tail] returns the last
    node of the traversal and takes it out of the traversal; the keys and
    values of the nodes and the index stay, so the index still holds the
    key of the node returned. *)
Theorem X3_pop_tail_last s :
  reachable s → (0 < len s)%Z →
  ∃ ls e s',
    chain s = Some (ls ++ [e]) ∧ _pop_tail s = Ok (Some e, s') ∧
    chain s' = Some ls ∧ cache s' = cache s ∧
    (∀ x, entry (heap s') x = entry (heap s) x) ∧
    cache s' !! (entry (heap s') e).1 = Some e.
Proof.
  intros Hr Hlen. destruct (reachable_inv s Hr) as [ls Hinv].
  pose proof (inv_size _ _ Hinv) as Hsz. unfold len in Hlen.
  destruct ls as [|x ls] using rev_ind; [simpl in Hsz; lia|]. clear IHls.
  destruct (pop_tail_spec s ls x (inv_dll _ _ Hinv)) as (h' & Hrun & Hd & Hs).
  exists ls, x, (with_heap h' s).
  split; [by apply chain_dll, Hinv|]. split; [done|].
  split; [by apply (chain_dll (with_heap h' s))|]. split; [done|].
  split; [intros y; by apply same_data_entry|].
  cbn [heap cache with_heap]. rewrite (same_data_entry _ _ _ Hs).
  apply (inv_index_entry s (ls ++ [x]) _ x Hinv). split; [|done].
  apply elem_of_app. right. by left.
Qed.

(** X4: in a reachable state, [_remove_node] of the node of a present key
    takes exactly that node out of the traversal and keeps the order of
    the others; the index and the keys and values of the nodes stay. *)
Theorem X4_remove_node s k l :
  reachable s → cache s !! k = Some l →
  ∃ ls s',
    chain s = Some ls ∧ l ∈ ls ∧
    _remove_node (Some l) s = Ok (tt, s') ∧
    chain s' = Some (filter (λ x, x ≠ l) ls) ∧
    cache s' = cache s ∧ (∀ x, entry (heap s') x = entry (heap s) x).
Proof.
  intros Hr Hc. destruct (reachable_inv s Hr) as [ls Hinv].
  pose proof (proj1 (inv_index s ls Hinv k l) Hc) as [Hin _].
  pose proof Hin as Hin'. apply list_elem_of_lookup_1 in Hin' as [j Hj].
  destruct (remove_node_spec s ls j l (inv_dll _ _ Hinv) Hj) as (h' & Hrun & Hd & Hs).
  exists ls, (with_heap h' s).
  split; [by apply chain_dll, Hinv|]. split; [done|]. split; [done|].
  split.
  - rewrite <- (delete_filter_ne ls j l (inv_nodup_ls _ _ Hinv) Hj).
    by apply (chain_dll (with_heap h' s)).
  - split; [done|]. intros x. by apply same_data_entry.
Qed.

(** X5: in a reachable state, [_add_node] of a node just made by
    [Node(k, v)] puts it first in the traversal, in front of the nodes
    that were there; the index is not touched. *)
Theorem X5_add_node_new s k v :
  reachable s →
  ∃ ls n s',
    chain s = Some ls ∧
    (new_node <- alloc k v ;; _add_node new_node) s = Ok (tt, s') ∧
    (n ∉ ls) ∧ chain s' = Some (n :: ls) ∧ after_head s' = Some (Some n) ∧
    entry (heap s') n = (k, v) ∧ cache s' = cache s ∧
    (∀ x, x ∈ ls → entry (heap s') x = entry (heap s) x).
Proof.
  intros Hr. destruct (reachable_inv s Hr) as [ls Hinv].
  set (n := fresh (dom (heap s))).
  set (s1 := with_heap (<[n := mkNode k v None None]> (heap s)) s).
  assert (inv s1 ls) as Hinv1 by apply (inv_alloc _ _ _ Hinv).
  destruct (add_node_spec s1 ls n (inv_dll _ _ Hinv1)) as (h' & Hrun & Hd & Hs).
  { apply (fresh_not_in_chain s ls Hinv). }
  { subst s1. simpl. by rewrite lookup_insert_eq. }
  exists ls, n, (with_heap h' s1).
  split; [by apply chain_dll, Hinv|]. split.
  { unfold alloc. by rewrite (bind_ok _ _ s _ s1 eq_refl). }
  split.
  { intros Hin. apply (fresh_not_in_chain s ls Hinv). right.
    apply elem_of_app. by left. }
  split; [by apply (chain_dll (with_heap h' s1))|]. split.
  { destruct Hd as [_ Hl _ _].
    by destruct (Hl 0 (head s) n eq_refl eq_refl) as [H1 _]. }
  split.
  { cbn [heap with_heap]. rewrite (same_data_entry _ _ _ Hs).
    apply entry_alloc_new. }
  split; [done|]. intros x Hx.
  cbn [heap with_heap]. rewrite (same_data_entry _ _ _ Hs).
  apply entry_alloc_old. by eapply inv_in_heap.
Qed.

(** X6: a [get] that repeats a [get] of a present key returns the same
    value and leaves the state exactly as the first [get] left it. *)
Theorem X6_get_again s k l :
  reachable s → cache s !! k = Some l →
  ∃ v s1, get k s = Ok (v, s1) ∧ get k s1 = Ok (v, s1).
Proof.
  intros Hr Hc. destruct (reachable_inv s Hr) as [ls Hinv].
  destruct (get_hit_spec s ls k l Hinv Hc) as (j & v & h' & Hj & Hl & Hrun & Hinv' & Hs).
  exists v, (with_heap h' s). split; [done|].
  apply (get_first _ l (delete j ls)); [done|].
  cbn [heap with_heap]. by rewrite (same_data_entry _ _ _ Hs).
Qed.

(** X7: after [put(k, v)] on a reachable state, [get(k)] returns [v] and
    a second [put(k, v)] succeeds, and neither changes the state. *)
Theorem X7_put_again s k v :
  reachable s →
  ∃ s1, put k v s = Ok (tt, s1) ∧
    get k s1 = Ok (v, s1) ∧ put k v s1 = Ok (tt, s1).
Proof.
  intros Hr. destruct (reachable_inv s Hr) as [ls Hinv].
  assert (∃ s1 l ls1, put k v s = Ok (tt, s1) ∧ inv s1 (l :: ls1) ∧
            entry (heap s1) l = (k, v)) as (s1 & l & ls1 & Hput & Hinv1 & Hl).
  { destruct (cache s !! k) as [l|] eqn:Hc.
    - destruct (put_update_items s ls k v l Hinv Hc)
        as (v0 & h' & ls' & _ & _ & Hrun & Hinv' & _ & Hl' & _).
      by exists (with_heap h' s), l, ls'.
    - destruct (put_new_items s ls k v Hinv Hc)
        as (s' & n & ls' & Hput & Hinv' & _ & _ & _ & Hn & _).
      by exists s', n, ls'. }
  exists s1. split; [done|]. split.
  - by apply (get_first s1 l ls1).
  - by apply (put_first s1 l ls1).
Qed.

(** X8: [put(k, v)] on a reachable state touches no other key's entry:
    a key other than [k] that is present afterwards was present before, at
    the same node and with the same value; at most one key is lost, and
    none is lost when [k] was present or there was room. *)
Theorem X8_put_other_keys s k v :
  reachable s →
  ∃ s', put k v s = Ok (tt, s') ∧ is_Some (cache s' !! k) ∧
    (∀ k' l', k' ≠ k → cache s' !! k' = Some l' →
       cache s !! k' = Some l' ∧ entry (heap s') l' = entry (heap s) l') ∧
    (∀ k1 k2,
       is_Some (cache s !! k1) → cache s' !! k1 = None →
       is_Some (cache s !! k2) → cache s' !! k2 = None → k1 = k2) ∧
    (is_Some (cache s !! k) ∨ (len s < capacity s)%Z →
       ∀ k', is_Some (cache s !! k') → is_Some (cache s' !! k')).
Proof.
  intros Hr. destruct (reachable_inv s Hr) as [ls Hinv].
  assert (∀ h' x, same_data (<[fresh (dom (heap s)) := mkNode k v None None]> (heap s)) h' →
            x ∈ ls → entry h' x = entry (heap s) x) as Hold.
  { intros h' x Hs Hx. rewrite (same_data_entry _ _ _ Hs).
    apply entry_alloc_old. by eapply inv_in_heap. }
  destruct (cache s !! k) as [l|] eqn:Hc.
  - destruct (put_update_spec s ls k v l Hinv Hc)
      as (j & h' & Hj & Hrun & Hinv' & Hk & Hv & Hl').
    exists (with_heap h' s). split; [done|]. cbn [cache heap with_heap].
    split; [by rewrite Hc|]. split; [|split].
    + intros k' l' Hne Hc'. split; [done|]. apply entry_eq; [done|].
      apply Hv. intros ->.
      apply (inv_index s ls Hinv) in Hc as [_ H1].
      apply (inv_index s ls Hinv) in Hc' as [_ H2]. congruence.
    + intros k1 k2 [x1 H1] H1'. congruence.
    + done.
  - destruct (decide (capacity s ≤ Z.of_nat (size (cache s)))%Z) as [Hfull|Hroom].
    + destruct (put_full_spec s ls k v Hinv Hc Hfull)
        as (ls0 & e & ke & ve & h' & -> & He & Hke & Hrun & Hinv' & Hs).
      eexists. split; [done|]. cbn [cache heap].
      split; [by rewrite lookup_insert_eq|]. split; [|split].
      * intros k' l' Hne Hc'. rewrite lookup_insert_ne in Hc' by done.
        apply lookup_delete_Some in Hc' as [Hne' Hc']. split; [done|].
        apply Hold; [done|]. by apply (inv_index s _ Hinv) in Hc' as [? _].
      * intros k1 k2 [x1 H1] H1' [x2 H2] H2'.
        assert (∀ k' x, cache s !! k' = Some x →
                  <[k:=fresh (dom (heap s))]> (delete ke (cache s)) !! k' = None →
                  k' = ke) as Hev.
        { intros k' x Hx Hx'. apply lookup_insert_None in Hx' as [Hx' _].
          apply lookup_delete_None in Hx' as [Hx'|Hx']; congruence. }
        rewrite (Hev k1 x1 H1 H1'). by rewrite (Hev k2 x2 H2 H2').
      * intros [[x Hx]|Hlt]; [done|]. unfold len in Hlt. lia.
    + destruct (put_room_spec s ls k v Hinv Hc) as (h' & Hrun & Hinv' & Hs); [lia|].
      eexists. split; [done|]. cbn [cache heap].
      split; [by rewrite lookup_insert_eq|]. split; [|split].
      * intros k' l' Hne Hc'. rewrite lookup_insert_ne in Hc' by done.
        split; [done|]. apply Hold; [done|].
        by apply (inv_index s _ Hinv) in Hc' as [? _].
      * intros k1 k2 [x1 H1] H1'.
        apply lookup_insert_None in H1' as [H1' _]. congruence.
      * intros _ k' [x Hx]. destruct (decide (k = k')) as [->|Hne].
        -- by rewrite lookup_insert_eq.
        -- rewrite lookup_insert_ne by done. by rewrite Hx.
Qed.

(** X10: from a reachable state, every run of operations succeeds, and
    its results and the entries it ends with are those of the list model,
    started from the entries of the state. *)
Theorem X10_refines_list_model s ops :
  reachable s →
  ∃ its s',
    items s = Some its ∧
    run ops s = Ok ((model_run (capacity s) ops its).1, s') ∧
    items s' = Some (model_run (capacity s) ops its).2 ∧
    capacity s' = capacity s.
Proof.
  intros Hr. destruct (reachable_inv s Hr) as [ls Hinv].
  destruct (run_refines ops s ls Hinv) as (s' & ls' & Hrun & Hinv' & Hcap & Hent).
  exists (entry (heap s) <$> ls), s'. split; [by apply items_inv|].
  split; [done|]. split; [|done]. by rewrite (items_inv _ _ Hinv'), Hent.
Qed.

(** X11: on a new cache, after [put]s of pairwise distinct keys, the
    entries are the last [capacity] pairs put, the latest first, and the
    size is the smaller of the capacity and the number of pairs. *)
Theorem X11_distinct_puts cap (kvs : list (Z * Z)) :
  (0 < cap)%Z → NoDup kvs.*1 →
  ∃ rs s,
    session cap (puts kvs) = Ok (rs, s) ∧
    items s = Some (take (Z.to_nat cap) (reverse kvs)) ∧
    len s = Z.min cap (Z.of_nat (length kvs)).
Proof.
  intros Hpos Hnd.
  destruct (puts_distinct cap kvs Hpos Hnd) as (rs & s & ls & Hrun & Hinv & Hcap & Hent).
  exists rs, s. split; [done|]. split; [by rewrite (items_inv _ _ Hinv), Hent|].
  unfold len. rewrite (inv_size _ _ Hinv).
  apply (f_equal length) in Hent.
  rewrite length_fmap, length_take, length_reverse in Hent. lia.
Qed.

(** X13: on a reachable state [display_cache_state] ends and prints
    ["Cache is empty"] when the traversal finds no entry; otherwise it
    prints the capacity and the size, which is the number of entries it
    lists, then the entries from most to least recently used. *)
Theorem X13_display s :
  reachable s →
  ∃ its,
    items s = Some its ∧ Z.of_nat (length its) = len s ∧
    display_cache_state s =
      Some match its with
           | [] => ["Cache is empty"]
           | _ :: _ =>
               [ "Cache state (capacity: " +:+ pretty (capacity s)
                   +:+ ", size: " +:+ pretty (Z.of_nat (length its)) +:+ "):";
                 "Most Recent -> Least Recent:";
                 String.concat " -> " (fmt_item <$> its);
                 "" ]
           end.
Proof.
  intros Hr. destruct (reachable_inv s Hr) as [ls Hinv].
  pose proof (inv_size _ _ Hinv) as Hsz.
  exists (entry (heap s) <$> ls). split; [by apply items_inv|].
  split; [unfold len; rewrite length_fmap; lia|].
  unfold display_cache_state. rewrite (items_inv _ _ Hinv).
  destruct (decide (cache s = ∅)) as [He|Hne].
  - rewrite He, map_size_empty in Hsz. by destruct ls.
  - destruct ls as [|l ls].
    + apply map_size_empty_iff in Hsz. done.
    + unfold len. rewrite Hsz, length_fmap. done.
Qed.

(** X14: on a reachable state the traversal lists each key of the index
    once, with the value that [get] returns for it, and a key it does not
    list is not in the index. *)
Theorem X14_items_and_get s :
  reachable s →
  ∃ its,
    items s = Some its ∧ NoDup its.*1 ∧
    (∀ k v, (k, v) ∈ its ↔
       is_Some (cache s !! k) ∧ ∃ s', get k s = Ok (v, s')) ∧
    (∀ k, k ∉ its.*1 ↔ cache s !! k = None).
Proof.
  intros Hr. destruct (reachable_inv s Hr) as [ls Hinv].
  exists (entry (heap s) <$> ls). split; [by apply items_inv|].
  split; [by eapply inv_nodup_keys|]. split.
  - intros k v. split.
    + intros Hin. apply list_elem_of_fmap in Hin as (l & Hl & Hin).
      assert (cache s !! k = Some l) as Hc.
      { apply (inv_index_entry s ls k l Hinv). split; [done|]. by rewrite <- Hl. }
      split; [by rewrite Hc|].
      destruct (get_hit_items s ls k l Hinv Hc) as (v' & h' & ls' & Hl' & _ & Hrun & _).
      exists (with_heap h' s). congruence.
    + intros [[l Hc] [s' Hget]].
      destruct (get_hit_items s ls k l Hinv Hc) as (v' & h' & ls' & _ & Hin & Hrun & _).
      congruence.
  - intros k. split; intros H; by apply (inv_cache_None s ls k Hinv).
Qed.

(** ** Properties of the list model *)

Lemma filter_keys_elem k k' (its : list (Z * Z)) :
  k' ∈ (filter (λ kv, kv.1 ≠ k) its).*1 ↔ k' ≠ k ∧ k' ∈ its.*1.
Proof.
  rewrite !list_elem_of_fmap. split.
  - intros ([k0 v0] & -> & Hin). apply list_elem_of_filter in Hin as [Hne Hin].
    split; [done|]. by exists (k0, v0).
  - intros [Hne ([k0 v0] & -> & Hin)]. exists (k0, v0). split; [done|].
    by apply list_elem_of_filter.
Qed.

Lemma filter_keys_nodup k (its : list (Z * Z)) :
  NoDup its.*1 → NoDup (filter (λ kv, kv.1 ≠ k) its).*1.
Proof.
  induction its as [|[k0 v0] its IH]; intros Hnd; [done|].
  apply NoDup_cons in Hnd as [Hk0 Hnd].
  destruct (decide (k0 = k)) as [->|Hne].
  - rewrite filter_cons_False by (simpl; tauto). by apply IH.
  - rewrite filter_cons_True by done. simpl. apply NoDup_cons. split; [|by apply IH].
    rewrite filter_keys_elem. tauto.
Qed.

Lemma promote_nodup k v (its : list (Z * Z)) :
  NoDup its.*1 → NoDup ((k, v) :: filter (λ kv, kv.1 ≠ k) its).*1.
Proof.
  intros Hnd. simpl. apply NoDup_cons. split; [|by apply filter_keys_nodup].
  rewrite filter_keys_elem. tauto.
Qed.

Lemma insert_nodup k v n (its : list (Z * Z)) :
  NoDup its.*1 → k ∉ its.*1 → NoDup ((k, v) :: take n its).*1.
Proof.
  intros Hnd Hk. simpl. rewrite fmap_take. apply NoDup_cons. split.
  - intros Hin. apply Hk. by apply (subseteq_take n).
  - eapply sublist_NoDup; [done|apply sublist_take].
Qed.

Lemma model_step_nodup cap o (its : list (Z * Z)) :
  NoDup its.*1 → NoDup (model_step cap o its).2.*1.
Proof.
  intros Hnd. destruct o as [k|k v]; unfold model_step;
    destruct (assoc k its) as [v0|] eqn:Ha; cbn [snd].
  - by apply promote_nodup.
  - done.
  - by apply promote_nodup.
  - apply insert_nodup; [done|]. by apply assoc_None.
Qed.

Lemma assoc_filter_ne k k' (its : list (Z * Z)) :
  k' ≠ k → assoc k' (filter (λ kv, kv.1 ≠ k) its) = assoc k' its.
Proof.
  intros Hne. induction its as [|[k0 v0] its IH]; [done|].
  destruct (decide (k0 = k)) as [->|Hne0].
  - rewrite filter_cons_False by (simpl; tauto). simpl.
    by rewrite decide_False by congruence.
  - rewrite filter_cons_True by done. simpl. by rewrite IH.
Qed.

Lemma assoc_promote k v k' (its : list (Z * Z)) :
  assoc k' ((k, v) :: filter (λ kv, kv.1 ≠ k) its)
    = if decide (k = k') then Some v else assoc k' its.
Proof.
  simpl. destruct (decide (k = k')) as [->|Hne]; [done|].
  apply assoc_filter_ne. congruence.
Qed.

Lemma promote_keeps k v T k' v' its :
  k' ≠ k → k' ∈ T → keeps k v T its →
  keeps k v T ((k', v') :: filter (λ kv, kv.1 ≠ k') its).
Proof.
  intros Hne HT (front & back & -> & Hnd & Hfront).
  exists ((k', v') :: filter (λ kv, kv.1 ≠ k') front), (filter (λ kv, kv.1 ≠ k') back).
  split; [|split].
  - rewrite filter_app. rewrite filter_cons_True by (simpl; congruence). done.
  - by apply promote_nodup.
  - intros x Hx. simpl in Hx. apply elem_of_cons in Hx as [->|Hx]; [done|].
    apply filter_keys_elem in Hx as [_ Hx]. by apply Hfront.
Qed.

Lemma insert_keeps k v (T : gset Z) n k' v' its :
  k' ∈ T → k' ∉ its.*1 → size T ≤ n → keeps k v T its →
  keeps k v T ((k', v') :: take n its).
Proof.
  intros HT Hk' Hsz (front & back & -> & Hnd & Hfront).
  assert (S (length front) ≤ size T) as Hlen.
  { rewrite fmap_app in Hnd, Hk'. apply NoDup_app in Hnd as [Hnd _].
    rewrite elem_of_app in Hk'.
    assert (NoDup (k' :: front.*1)) as Hnd'.
    { apply NoDup_cons. split; [tauto|done]. }
    rewrite <- (length_fmap fst front).
    change (S (length front.*1)) with (length (k' :: front.*1)).
    rewrite <- (size_list_to_set (C := gset Z) _ Hnd').
    apply subseteq_size. intros x Hx. apply elem_of_list_to_set in Hx.
    apply elem_of_cons in Hx as [->|Hx]; [done|]. by apply Hfront. }
  exists ((k', v') :: front), (take (n - S (length front)) back).
  split; [|split].
  - simpl. f_equal. rewrite take_app. rewrite take_ge by lia.
    replace (n - length front) with (S (n - S (length front))) by lia. done.
  - by apply insert_nodup.
  - intros x Hx. simpl in Hx. apply elem_of_cons in Hx as [->|Hx]; [done|].
    by apply Hfront.
Qed.

Lemma model_step_keeps cap k v T o its :
  op_key o ≠ k → op_key o ∈ T → size T < Z.to_nat cap →
  keeps k v T its → keeps k v T (model_step cap o its).2.
Proof.
  intros Hne HT Hsz Hk.
  destruct o as [k'|k' v']; unfold model_step; simpl in Hne, HT;
    destruct (assoc k' its) as [v0|] eqn:Ha; cbn [snd].
  - by apply promote_keeps.
  - done.
  - by apply promote_keeps.
  - apply insert_keeps; [done| |lia|done]. by apply assoc_None.
Qed.

Lemma model_run_keeps cap k v T ops : ∀ its,
  (∀ o, o ∈ ops → op_key o ≠ k ∧ op_key o ∈ T) → size T < Z.to_nat cap →
  keeps k v T its → keeps k v T (model_run cap ops its).2.
Proof.
  induction ops as [|o ops IH]; intros its Hops Hsz Hk; [done|].
  rewrite model_run_cons. cbn [snd]. apply IH; [|done|].
  - intros o' Ho'. apply Hops. by right.
  - destruct (Hops o) as [H1 H2]; [by left|]. by apply model_step_keeps.
Qed.

Lemma keeps_assoc k v T its : keeps k v T its → assoc k its = Some v.
Proof.
  intros (front & back & -> & Hnd & _). apply assoc_elem; [done|].
  apply elem_of_app. right. by left.
Qed.

Lemma step_get_inversion k s r s' :
  step (Get k) s = Ok (Some r, s') → get k s = Ok (r, s').
Proof.
  simpl. unfold bind, ret. destruct (get k s) as [[v s1]|e]; [|done].
  by intros [= -> ->].
Qed.

(** An entry at the first node survives a run on other keys, fewer
    distinct ones than the capacity. *)
Lemma first_survives s l ls k v ops :
  inv s (l :: ls) → entry (heap s) l = (k, v) →
  k ∉ op_keys ops → (Z.of_nat (size (op_keys ops)) < capacity s)%Z →
  ∃ rs s2 s3, run ops s = Ok (rs, s2) ∧ get k s2 = Ok (v, s3).
Proof.
  intros Hinv Hl Hk Hsz.
  destruct (run_refines ops s (l :: ls) Hinv) as (s2 & ls2 & Hrun & Hinv2 & Hcap2 & Hent2).
  assert (keeps k v (op_keys ops) (entry (heap s) <$> l :: ls)) as Hkeeps.
  { exists [], (entry (heap s) <$> ls). rewrite fmap_cons, Hl.
    split; [done|]. split.
    - rewrite <- Hl. change (NoDup (entry (heap s) <$> l :: ls).*1).
      by eapply inv_nodup_keys.
    - intros x Hx. by apply elem_of_nil in Hx. }
  apply (model_run_keeps (capacity s) k v (op_keys ops) ops) in Hkeeps.
  - apply keeps_assoc in Hkeeps. rewrite <- Hent2 in Hkeeps.
    destruct (step_refines (Get k) s2 ls2 Hinv2) as (s3 & ls3 & Hstep & _).
    simpl in Hstep. rewrite Hkeeps in Hstep. simpl in Hstep.
    eexists _, s2, s3. split; [done|].
    apply step_get_inversion. simpl. done.
  - intros o Ho. assert (op_key o ∈ op_keys ops) as Hin.
    { unfold op_keys. apply elem_of_list_to_set. apply list_elem_of_fmap. by exists o. }
    split; [|done]. intros Heq. apply Hk. by rewrite <- Heq.
  - lia.
Qed.

(** X9: after [put(k, v)] on a reachable state, a run of operations on
    other keys, fewer distinct ones than the capacity, does not evict [k]:
    the [get(k)] that follows returns [v]. *)
Theorem X9_recently_used_survives s k v ops :
  reachable s → k ∉ op_keys ops →
  (Z.of_nat (size (op_keys ops)) < capacity s)%Z →
  ∃ s1 rs s2 s3,
    put k v s = Ok (tt, s1) ∧ run ops s1 = Ok (rs, s2) ∧
    get k s2 = Ok (v, s3).
Proof.
  intros Hr Hk Hsz. destruct (reachable_inv s Hr) as [ls Hinv].
  assert (∃ s1 l ls1, put k v s = Ok (tt, s1) ∧ inv s1 (l :: ls1) ∧
            capacity s1 = capacity s ∧ entry (heap s1) l = (k, v))
    as (s1 & l & ls1 & Hput & Hinv1 & Hcap1 & Hl).
  { destruct (cache s !! k) as [l|] eqn:Hc.
    - destruct (put_update_items s ls k v l Hinv Hc)
        as (v0 & h' & ls' & _ & _ & Hrun & Hinv' & _ & Hl' & _).
      by exists (with_heap h' s), l, ls'.
    - destruct (put_new_items s ls k v Hinv Hc)
        as (s' & n & ls' & Hput & Hinv' & Hcap' & _ & _ & Hn & _).
      by exists s', n, ls'. }
  destruct (first_survives s1 l ls1 k v ops Hinv1 Hl Hk) as (rs & s2 & s3 & Hrun & Hget).
  { by rewrite Hcap1. }
  by exists s1, rs, s2, s3.
Qed.

(** X15: after a [get(k)] that finds [k] on a reachable state, a run of
    operations on other keys, fewer distinct ones than the capacity, does
    not evict [k]: the [get(k)] that follows returns the same value. *)
Theorem X15_get_protects s k l ops :
  reachable s → cache s !! k = Some l → k ∉ op_keys ops →
  (Z.of_nat (size (op_keys ops)) < capacity s)%Z →
  ∃ v s1 rs s2 s3,
    get k s = Ok (v, s1) ∧ run ops s1 = Ok (rs, s2) ∧
    get k s2 = Ok (v, s3).
Proof.
  intros Hr Hc Hk Hsz. destruct (reachable_inv s Hr) as [ls Hinv].
  destruct (get_hit_spec s ls k l Hinv Hc) as (j & v & h' & Hj & Hl & Hget & Hinv' & Hs).
  destruct (first_survives (with_heap h' s) l (delete j ls) k v ops Hinv')
    as (rs & s2 & s3 & Hrun & Hget2); [|done|done|].
  { cbn [heap with_heap]. by rewrite (same_data_entry _ _ _ Hs). }
  by exists v, (with_heap h' s), rs, s2, s3.
Qed.

(** X16: in a reachable state, [_move_to_head] of the node of a present
    key puts that node first and keeps the order of the others; the index
    and the keys and values of the nodes stay, and when the node is first
    already the state does not change at all. *)
Theorem X16_move_to_head s k l :
  reachable s → cache s !! k = Some l →
  ∃ ls s',
    chain s = Some ls ∧ l ∈ ls ∧
    _move_to_head (Some l) s = Ok (tt, s') ∧
    chain s' = Some (l :: filter (λ x, x ≠ l) ls) ∧
    cache s' = cache s ∧ (∀ x, entry (heap s') x = entry (heap s) x) ∧
    (after_head s = Some (Some l) → s' = s).
Proof.
  intros Hr Hc. destruct (reachable_inv s Hr) as [ls Hinv].
  pose proof (proj1 (inv_index s ls Hinv k l) Hc) as [Hin _].
  pose proof Hin as Hin'. apply list_elem_of_lookup_1 in Hin' as [j Hj].
  destruct (move_to_head_spec s ls j l (inv_dll _ _ Hinv) Hj) as (h' & Hrun & Hd & Hs).
  exists ls, (with_heap h' s).
  split; [by apply chain_dll, Hinv|]. split; [done|]. split; [done|].
  split.
  { rewrite <- (delete_filter_ne ls j l (inv_nodup_ls _ _ Hinv) Hj).
    by apply (chain_dll (with_heap h' s)). }
  split; [done|]. split; [intros x; by apply same_data_entry|].
  intros Hfirst. destruct ls as [|l0 ls]; [by apply elem_of_nil in Hin|].
  rewrite (inv_after_head _ _ _ Hinv) in Hfirst. injection Hfirst as ->.
  rewrite (move_to_head_first s l ls Hinv) in Hrun. by injection Hrun as <-.
Qed.

(** ** The cache as a dictionary *)

Lemma assoc_dom (its : list (Z * Z)) (m : gmap Z Z) :
  NoDup its.*1 → (∀ k, assoc k its = m !! k) → size (dom m) = length its.
Proof.
  intros Hnd Ha. rewrite <- (length_fmap fst its).
  rewrite <- (size_list_to_set (C := gset Z) _ Hnd). f_equal.
  apply set_eq. intros k. rewrite elem_of_dom, elem_of_list_to_set.
  rewrite <- Ha. destruct (assoc k its) eqn:Hk.
  - split; [|by eexists]. intros _. apply assoc_Some_elem in Hk.
    apply list_elem_of_fmap. by eexists (k, _).
  - apply assoc_None in Hk. split; [by intros [? ?]|done].
Qed.

Lemma model_step_dict cap o (its : list (Z * Z)) (m : gmap Z Z) (K : gset Z) :
  NoDup its.*1 → (∀ k, assoc k its = m !! k) →
  dom m ⊆ K → (∀ k v, o = Put k v → k ∈ K) → size K ≤ Z.to_nat cap →
  (model_step cap o its).1 = (dict_step o m).1 ∧
  (∀ k, assoc k (model_step cap o its).2 = (dict_step o m).2 !! k) ∧
  dom (dict_step o m).2 ⊆ K.
Proof.
  intros Hnd Ha Hdom HK Hsz. destruct o as [k|k v]; unfold model_step, dict_step;
    destruct (assoc k its) as [v0|] eqn:Hk; cbn [fst snd].
  - rewrite <- Ha, Hk. split; [done|]. split; [|done].
    intros k'. rewrite assoc_promote. destruct (decide (k = k')) as [<-|]; [|done].
    by rewrite <- Ha.
  - rewrite <- Ha, Hk. by split.
  - split; [done|]. split.
    + intros k'. rewrite assoc_promote. destruct (decide (k = k')) as [<-|Hne].
      * by rewrite lookup_insert_eq.
      * by rewrite lookup_insert_ne.
    + rewrite dom_insert. apply union_subseteq. split; [|done].
      apply singleton_subseteq_l. by eapply HK.
  - assert (k ∈ K) as HkK by (by eapply HK).
    assert (k ∉ dom m) as Hkm.
    { rewrite elem_of_dom, <- Ha, Hk. by intros [? ?]. }
    assert (S (length its) ≤ size K) as Hlen.
    { rewrite <- (assoc_dom its m Hnd Ha).
      replace (S (size (dom m))) with (size ({[k]} ∪ dom m)).
      - apply subseteq_size. apply union_subseteq. split; [|done].
        by apply singleton_subseteq_l.
      - rewrite size_union by set_solver. by rewrite size_singleton. }
    rewrite take_ge by lia. split; [done|]. split.
    + intros k'. simpl. destruct (decide (k = k')) as [<-|Hne].
      * by rewrite lookup_insert_eq.
      * by rewrite lookup_insert_ne.
    + rewrite dom_insert. apply union_subseteq. split; [|done].
      by apply singleton_subseteq_l.
Qed.

Lemma dict_run_cons o ops m :
  dict_run (o :: ops) m = (dict_step o m).1 :: dict_run ops (dict_step o m).2.
Proof. simpl. by destruct (dict_step o m). Qed.

Lemma model_run_dict cap (K : gset Z) ops : ∀ (its : list (Z * Z)) (m : gmap Z Z),
  NoDup its.*1 → (∀ k, assoc k its = m !! k) →
  dom m ⊆ K → put_keys ops ⊆ K → size K ≤ Z.to_nat cap →
  (model_run cap ops its).1 = dict_run ops m.
Proof.
  induction ops as [|o ops IH]; intros its m Hnd Ha Hdom Hput Hsz; [done|].
  rewrite model_run_cons, dict_run_cons. cbn [fst].
  destruct (model_step_dict cap o its m K Hnd Ha Hdom) as (Hout & Ha' & Hdom'); [|done|].
  { intros k v ->. apply Hput. unfold put_keys. simpl. set_solver. }
  rewrite Hout. f_equal. apply IH; [by apply model_step_nodup|done|done| |done].
  intros x Hx. apply Hput. unfold put_keys in *. destruct o; simpl; set_solver.
Qed.

(** X12: on a new cache whose capacity is at least the number of
    distinct keys that a run of operations puts, nothing is evicted: every
    [get] returns what a plain dictionary would hold for the key, and -1
    for a key never put. *)
Theorem X12_no_eviction_is_dictionary cap ops :
  (0 < cap)%Z → (Z.of_nat (size (put_keys ops)) ≤ cap)%Z →
  outputs (session cap ops) = Some (dict_run ops ∅).
Proof.
  intros Hpos Hsz. unfold session. rewrite (init_ok cap Hpos).
  destruct (run_refines ops _ [] (init_inv cap Hpos)) as (s' & ls' & Hrun & _).
  rewrite Hrun. simpl. f_equal.
  apply (model_run_dict cap (put_keys ops)); try done.
  - apply NoDup_nil_2.
  - lia.
Qed.

(** ** The further properties at concrete states *)

Lemma room3_reachable : reachable room3.
Proof. apply (session_reachable 3 [Put 1 1]%Z [None]). by vm_compute. Qed.


Lemma X1_witness :
  reachable room3 ∧ cache room3 !! 2%Z = None ∧ (len room3 < capacity room3)%Z ∧
  ∃ its s', items room3 = Some its ∧ put 2 20 room3 = Ok (tt, s') ∧
    items s' = Some ((2, 20)%Z :: its) ∧ len s' = (len room3 + 1)%Z.
Proof.
  split; [apply room3_reachable|]. split; [by vm_compute|]. split; [by vm_compute|].
  destruct (X1_put_with_room room3 2%Z 20%Z room3_reachable)
    as (ls & its & n & s' & _ & Hits & Hput & _ & _ & _ & Hits' & Hlen & _);
    [by vm_compute|by vm_compute|].
  exists its, s'. split; [exact Hits|]. split; [exact Hput|].
  split; [exact Hits'|exact Hlen].
Defined.


Lemma X3_witness :
  reachable full2 ∧ (0 < len full2)%Z ∧
  ∃ ls e s', chain full2 = Some (ls ++ [e]) ∧
    _pop_tail full2 = Ok (Some e, s') ∧ chain s' = Some ls.
Proof.
  split; [apply full2_reachable|]. split; [by vm_compute|].
  destruct (X3_pop_tail_last full2 full2_reachable)
    as (ls & e & s' & Hch & Hpop & Hch' & _); [by vm_compute|].
  exists ls, e, s'. split; [exact Hch|]. split; [exact Hpop|exact Hch'].
Defined.

Lemma X4_witness :
  reachable full2 ∧ cache full2 !! 1%Z = Some 2 ∧
  ∃ ls s', chain full2 = Some ls ∧ _remove_node (Some 2) full2 = Ok (tt, s') ∧
    chain s' = Some (filter (λ x, x ≠ 2) ls).
Proof.
  split; [apply full2_reachable|]. split; [by vm_compute|].
  destruct (X4_remove_node full2 1%Z 2 full2_reachable)
    as (ls & s' & Hch & _ & Hrm & Hch' & _); [by vm_compute|].
  exists ls, s'. split; [exact Hch|]. split; [exact Hrm|exact Hch'].
Defined.

Lemma X5_witness :
  reachable full2 ∧
  ∃ ls n s', chain full2 = Some ls ∧
    (new_node <- alloc 7 70 ;; _add_node new_node) full2 = Ok (tt, s') ∧
    chain s' = Some (n :: ls) ∧ entry (heap s') n = (7, 70)%Z.
Proof.
  split; [apply full2_reachable|].
  destruct (X5_add_node_new full2 7%Z 70%Z full2_reachable)
    as (ls & n & s' & Hch & Hrun & _ & Hch' & _ & Hn & _).
  exists ls, n, s'. split; [exact Hch|]. split; [exact Hrun|].
  split; [exact Hch'|exact Hn].
Defined.

Lemma X6_witness :
  reachable full2 ∧ cache full2 !! 1%Z = Some 2 ∧
  ∃ v s1, get 1 full2 = Ok (v, s1) ∧ get 1 s1 = Ok (v, s1).
Proof.
  split; [apply full2_reachable|]. split; [by vm_compute|].
  apply (X6_get_again full2 1%Z 2 full2_reachable). by vm_compute.
Defined.

Lemma X7_witness :
  reachable full2 ∧
  ∃ s1, put 1 10 full2 = Ok (tt, s1) ∧
    get 1 s1 = Ok (10%Z, s1) ∧ put 1 10 s1 = Ok (tt, s1).
Proof.
  split; [apply full2_reachable|].
  apply (X7_put_again full2 1%Z 10%Z full2_reachable).
Defined.

Lemma X8_witness :
  reachable full2 ∧
  ∃ s', put 3 3 full2 = Ok (tt, s') ∧ is_Some (cache s' !! 3%Z) ∧
    ∀ l', cache s' !! 2%Z = Some l' →
      cache full2 !! 2%Z = Some l' ∧ entry (heap s') l' = entry (heap full2) l'.
Proof.
  split; [apply full2_reachable|].
  destruct (X8_put_other_keys full2 3%Z 3%Z full2_reachable)
    as (s' & Hput & Hk & Hother & _).
  exists s'. split; [exact Hput|]. split; [exact Hk|].
  intros l'. apply Hother. discriminate.
Defined.

Lemma X9_witness :
  reachable room3 ∧ (7%Z ∉ op_keys [Put 8 8; Get 1]%Z) ∧
  (Z.of_nat (size (op_keys [Put 8 8; Get 1]%Z)) < capacity room3)%Z ∧
  ∃ s1 rs s2 s3, put 7 70 room3 = Ok (tt, s1) ∧
    run [Put 8 8; Get 1]%Z s1 = Ok (rs, s2) ∧ get 7 s2 = Ok (70%Z, s3).
Proof.
  assert (7%Z ∉ op_keys [Put 8 8; Get 1]%Z) as Hk.
  { apply (bool_decide_unpack _). by vm_compute. }
  split; [apply room3_reachable|]. split; [exact Hk|]. split; [by vm_compute|].
  apply (X9_recently_used_survives room3 7%Z 70%Z _ room3_reachable Hk).
  by vm_compute.
Defined.

Lemma X10_witness :
  reachable full2 ∧
  ∃ its s', items full2 = Some its ∧
    run [Get 1; Put 3 3; Get 2]%Z full2
      = Ok ((model_run (capacity full2) [Get 1; Put 3 3; Get 2]%Z its).1, s') ∧
    items s' = Some (model_run (capacity full2) [Get 1; Put 3 3; Get 2]%Z its).2.
Proof.
  split; [apply full2_reachable|].
  destruct (X10_refines_list_model full2 [Get 1; Put 3 3; Get 2]%Z full2_reachable)
    as (its & s' & Hits & Hrun & Hits' & _).
  exists its, s'. split; [exact Hits|]. split; [exact Hrun|exact Hits'].
Defined.

Lemma X11_witness :
  (0 < 2)%Z ∧ NoDup [(1, 10); (2, 20); (3, 30)]%Z.*1 ∧
  ∃ rs s, session 2 (puts [(1, 10); (2, 20); (3, 30)]%Z) = Ok (rs, s) ∧
    items s = Some (take (Z.to_nat 2) (reverse [(1, 10); (2, 20); (3, 30)]%Z)).
Proof.
  assert (NoDup [(1, 10); (2, 20); (3, 30)]%Z.*1) as Hnd.
  { apply (bool_decide_unpack _). by vm_compute. }
  split; [lia|]. split; [exact Hnd|].
  destruct (X11_distinct_puts 2%Z [(1, 10); (2, 20); (3, 30)]%Z) as (rs & s & Hrun & Hits & _);
    [lia|exact Hnd|].
  exists rs, s. split; [exact Hrun|exact Hits].
Defined.

Lemma X12_witness :
  (0 < 2)%Z ∧
  (Z.of_nat (size (put_keys [Put 1 1; Put 2 2; Get 1; Put 1 5; Get 1; Get 3]%Z)) ≤ 2)%Z ∧
  outputs (session 2 [Put 1 1; Put 2 2; Get 1; Put 1 5; Get 1; Get 3]%Z)
    = Some (dict_run [Put 1 1; Put 2 2; Get 1; Put 1 5; Get 1; Get 3]%Z ∅).
Proof.
  split; [lia|]. split; [by vm_compute|].
  apply X12_no_eviction_is_dictionary; [lia|by vm_compute].
Defined.

Lemma X13_witness :
  reachable full2 ∧
  ∃ its, items full2 = Some its ∧ Z.of_nat (length its) = len full2 ∧
    display_cache_state full2 ≠ None.
Proof.
  split; [apply full2_reachable|].
  destruct (X13_display full2 full2_reachable) as (its & Hits & Hlen & Hd).
  exists its. split; [exact Hits|]. split; [exact Hlen|].
  rewrite Hd. discriminate.
Defined.

Lemma X14_witness :
  reachable full2 ∧
  ∃ its, items full2 = Some its ∧ NoDup its.*1 ∧
    (9%Z ∉ its.*1 ↔ cache full2 !! 9%Z = None).
Proof.
  split; [apply full2_reachable|].
  destruct (X14_items_and_get full2 full2_reachable) as (its & Hits & Hnd & _ & Hk).
  exists its. split; [exact Hits|]. split; [exact Hnd|]. apply Hk.
Defined.

Lemma X15_witness :
  reachable room3 ∧ cache room3 !! 1%Z = Some 2 ∧
  (1%Z ∉ op_keys [Put 8 8; Put 9 9]%Z) ∧
  (Z.of_nat (size (op_keys [Put 8 8; Put 9 9]%Z)) < capacity room3)%Z ∧
  ∃ v s1 rs s2 s3, get 1 room3 = Ok (v, s1) ∧
    run [Put 8 8; Put 9 9]%Z s1 = Ok (rs, s2) ∧ get 1 s2 = Ok (v, s3).
Proof.
  assert (1%Z ∉ op_keys [Put 8 8; Put 9 9]%Z) as Hk.
  { apply (bool_decide_unpack _). by vm_compute. }
  split; [apply room3_reachable|]. split; [by vm_compute|]. split; [exact Hk|].
  split; [by vm_compute|].
  apply (X15_get_protects room3 1%Z 2 _ room3_reachable); [by vm_compute|exact Hk|].
  by vm_compute.
Defined.

Lemma X16_witness :
  reachable full2 ∧ cache full2 !! 1%Z = Some 2 ∧
  ∃ ls s', chain full2 = Some ls ∧ _move_to_head (Some 2) full2 = Ok (tt, s') ∧
    chain s' = Some (2 :: filter (λ x, x ≠ 2) ls).
Proof.
  split; [apply full2_reachable|]. split; [by vm_compute|].
  destruct (X16_move_to_head full2 1%Z 2 full2_reachable)
    as (ls & s' & Hch & _ & Hmv & Hch' & _); [by vm_compute|].
  exists ls, s'. split; [exact Hch|]. split; [exact Hmv|exact Hch'].
Defined.
